(** * chat_downloader command line interface: a shallow embedding of
    [chat_downloader/cli.py] and the properties of its parameter
    introspector, flag synthesizer, mode resolver, retrieval dispatcher
    and error classifier. *)

From Stdlib Require Import Ascii String ZArith.
From stdpp Require Import gmap strings list fin_maps.

Open Scope string_scope.

(** ** Python values and exceptions *)

(** The values that occur as defaults and parsed arguments of the
    command line: [None], booleans, integers and strings. *)
Inductive pyval :=
| PNone
| PBool (b : bool)
| PInt (z : Z)
| PStr (s : string).

#[global] Instance pyval_eq_dec : EqDecision pyval.
Proof. solve_decision. Defined.

(** Python's [bool(v)]. *)
Definition truthy (v : pyval) : bool :=
  match v with
  | PNone => false
  | PBool b => b
  | PInt z => negb (Z.eqb z 0)
  | PStr s => negb (String.eqb s EmptyString)
  end.

(** [str(b).lower()] for a boolean [b]. *)
Definition lower_str_bool (b : bool) : string :=
  if b then "true" else "false".

(** [s.lstrip(c)] for a one character set. *)
Fixpoint lstrip (c : Ascii.ascii) (s : string) : string :=
  match s with
  | EmptyString => EmptyString
  | String a rest => if Ascii.eqb a c then lstrip c rest else s
  end.

(** The failure kinds [main] names in its [except] clauses, and every
    other exception. [RequestException] stands for a request-layer
    failure that is not a [ConnectionError]. *)
Inductive exn_kind :=
| URLNotProvided | SiteNotSupported | LoginRequired | VideoUnavailable
| NoChatReplay | VideoUnplayable | InvalidParameter | InvalidURL
| RetriesExceeded
| NoContinuation
| ConnectionError
| RequestException
| TimeoutException
| KeyboardInterrupt
| IndexError | KeyError | TypeError
| OtherException (class_name : string).

#[global] Instance exn_kind_eq_dec : EqDecision exn_kind.
Proof. solve_decision. Defined.

(** An exception object: its class and [str(e)]. *)
Record exception := Exception { kind : exn_kind; message : string }.

#[global] Instance exception_eq_dec : EqDecision exception.
Proof. solve_decision. Defined.

Inductive outcome (A : Type) :=
| Ok (a : A)
| Raise (e : exception).
Arguments Ok {A} a.
Arguments Raise {A} e.

(** ** Parameter introspector *)

(** One [param] entry of the parsed docstring. *)
Record doc_param := DocParam { arg_name : string; description : string }.

#[global] Instance doc_param_eq_dec : EqDecision doc_param.
Proof. solve_decision. Defined.

(** A callable as [get_info] sees it: the signature (each parameter
    with its declared default, when it has one) and the [params] of its
    parsed docstring. *)
Record function := Function {
  parameters : list (string * option pyval);
  doc_params : list doc_param
}.

(** One parameter of the signature: kept when it declares a default. *)
Definition default_args_step (acc : gmap string pyval)
    (p : string * option pyval) : gmap string pyval :=
  match p.2 with
  | Some d => <[p.1 := d]> acc
  | None => acc
  end.

(** Modelled from the spec: [get_default_args] of [utils] is not part
    of the sources at hand; it maps each parameter that declares a
    default to that default. *)
Definition get_default_args (f : function) : gmap string pyval :=
  foldl default_args_step ∅ (parameters f).

(** [d.get(k)]: [None] when the key is missing. *)
Definition dict_get (d : gmap string pyval) (k : string) : pyval :=
  default PNone (d !! k).

Record info_entry := InfoEntry { help : string; default_value : pyval }.

#[global] Instance info_entry_eq_dec : EqDecision info_entry.
Proof. solve_decision. Defined.

Definition get_info_step (args : gmap string pyval)
    (info : gmap string info_entry) (param : doc_param)
    : gmap string info_entry :=
  <[arg_name param :=
      {| help := description param;
         default_value := dict_get args (arg_name param) |}]> info.

Definition get_info (f : function) : gmap string info_entry :=
  let args := get_default_args f in
  foldl (get_info_step args) ∅ (doc_params f).

(** ** Flag synthesizer *)

(** The [type=] coercions [main] passes. *)
Inductive coercion := splitter | py_int | py_float | try_parse_int.

(** The keyword arguments of a call of [add_param]; a field is [None]
    when the keyword is not passed. *)
Record kwargs := Kwargs {
  kw_is_boolean_flag : option pyval;
  kw_default : option pyval;
  kw_help : option string;
  kw_action : option string;
  kw_type : option coercion;
  kw_choices : option (list string)
}.

Definition no_kwargs : kwargs :=
  {| kw_is_boolean_flag := None; kw_default := None; kw_help := None;
     kw_action := None; kw_type := None; kw_choices := None |}.

(** What [group.add_argument] receives: the flag spellings and the
    keywords, each [None] when not passed. *)
Record FlagDefinition := FlagDef {
  fd_keys : list string;
  fd_help : option string;
  fd_default : option pyval;
  fd_action : option string;
  fd_type : option coercion;
  fd_choices : option (list string)
}.

(** [group.add_argument] on the spellings and the keywords: the flag
    is appended to the group. The checks of the argument parser itself (a [type] or
    [choices] keyword with a constant-storing action, a spelling that
    is registered already) are not part of this model; the calls of
    [main] pass them. *)
Definition add_argument (group : list FlagDefinition) (keys : list string)
    (kw : kwargs) : list FlagDefinition :=
  group ++ [ {| fd_keys := keys; fd_help := kw_help kw;
                fd_default := kw_default kw; fd_action := kw_action kw;
                fd_type := kw_type kw; fd_choices := kw_choices kw |} ].

(** Unpacking the entry [info[key]] and the remaining keywords into one
    call: a keyword given by both is a [TypeError]. *)
Definition merge_keywords (entry : info_entry) (kw : kwargs) : outcome kwargs :=
  match kw_help kw, kw_default kw with
  | Some _, _ =>
      Raise (Exception TypeError "got multiple values for keyword argument 'help'")
  | None, Some _ =>
      Raise (Exception TypeError "got multiple values for keyword argument 'default'")
  | None, None =>
      Ok {| kw_is_boolean_flag := kw_is_boolean_flag kw;
            kw_default := Some (default_value entry);
            kw_help := Some (help entry);
            kw_action := kw_action kw; kw_type := kw_type kw;
            kw_choices := kw_choices kw |}
  end.

(** The boolean-flag branch of [add_param]: [default] is popped from the
    keywords of the call and decides the action. *)
Definition boolean_flag_action (kw : kwargs) : string :=
  "store_" ++ lower_str_bool (negb (truthy (default PNone (kw_default kw)))).

Definition pop_boolean_flag (kw : kwargs) : kwargs :=
  let is_boolean_flag := default PNone (kw_is_boolean_flag kw) in
  let kw := {| kw_is_boolean_flag := None; kw_default := kw_default kw;
               kw_help := kw_help kw; kw_action := kw_action kw;
               kw_type := kw_type kw; kw_choices := kw_choices kw |} in
  if truthy is_boolean_flag then
    {| kw_is_boolean_flag := None; kw_default := None;
       kw_help := kw_help kw;
       kw_action := Some (boolean_flag_action kw);
       kw_type := kw_type kw; kw_choices := kw_choices kw |}
  else kw.

Definition add_param (get_chat_info get_init_info : gmap string info_entry)
    (param_type : string) (group : list FlagDefinition)
    (keys : list string) (kw : kwargs) : outcome (list FlagDefinition) :=
  let kw := pop_boolean_flag kw in
  let info := if String.eqb param_type "chat" then get_chat_info
              else get_init_info in
  match keys with
  | [] => Raise (Exception IndexError "tuple index out of range")
  | key0 :: _ =>
      let key := lstrip "-"%char key0 in
      match info !! key with
      | None => Raise (Exception KeyError key)
      | Some entry =>
          match merge_keywords entry kw with
          | Raise e => Raise e
          | Ok merged => Ok (add_argument group keys merged)
          end
      end
  end.

Definition add_chat_param (get_chat_info get_init_info : gmap string info_entry)
    (group : list FlagDefinition) (keys : list string) (kw : kwargs) :=
  add_param get_chat_info get_init_info "chat" group keys kw.

Definition add_init_param (get_chat_info get_init_info : gmap string info_entry)
    (group : list FlagDefinition) (keys : list string) (kw : kwargs) :=
  add_param get_chat_info get_init_info "init" group keys kw.

(** *** What the argument parser does with a flag definition *)

(** The value a constant-storing action puts in the namespace when its
    flag is present. *)
Definition action_const (action : option string) : option pyval :=
  match action with
  | Some a =>
      if String.eqb a "store_true" then Some (PBool true)
      else if String.eqb a "store_false" then Some (PBool false)
      else None
  | None => None
  end.

(** The default of the namespace entry: the [default] keyword when it
    was passed, otherwise the action's own ([False] for [store_true],
    [True] for [store_false], [None] for a plain store). *)
Definition flag_default (fd : FlagDefinition) : pyval :=
  match fd_default fd with
  | Some d => d
  | None =>
      match action_const (fd_action fd) with
      | Some (PBool b) => PBool (negb b)
      | _ => PNone
      end
  end.

(** The namespace entry after parsing: [operand] is the converted
    operand of a flag that takes one. *)
Definition flag_value (fd : FlagDefinition) (present : bool) (operand : pyval)
    : pyval :=
  if present then
    match action_const (fd_action fd) with
    | Some c => c
    | None => operand
    end
  else flag_default fd.

(** ** The parsed namespace *)

(** The entries of [args] that [main] reads after [parse_args].
    [testing], [verbose] and [quiet] are [store_true] flags without a
    [default] keyword, hence booleans. *)
Record Namespace := {
  testing : bool;
  verbose : bool;
  quiet : bool;
  logging : pyval;
  pause_on_debug : pyval;
  exit_on_debug : pyval;
  output : pyval;
  sort_keys : pyval;
  indent : pyval;
  overwrite : pyval
}.

Definition set_logging (v : pyval) (args : Namespace) : Namespace :=
  {| testing := testing args; verbose := verbose args; quiet := quiet args;
     logging := v;
     pause_on_debug := pause_on_debug args;
     exit_on_debug := exit_on_debug args;
     output := output args; sort_keys := sort_keys args;
     indent := indent args; overwrite := overwrite args |}.

Definition set_pause_on_debug (v : pyval) (args : Namespace) : Namespace :=
  {| testing := testing args; verbose := verbose args; quiet := quiet args;
     logging := logging args;
     pause_on_debug := v;
     exit_on_debug := exit_on_debug args;
     output := output args; sort_keys := sort_keys args;
     indent := indent args; overwrite := overwrite args |}.

(** The [--sort_keys] argument as [main] registers it in the output
    group. *)
Definition sort_keys_argument : FlagDefinition :=
  {| fd_keys := ["--sort_keys"];
     fd_help := Some "Sort keys when outputting to a file";
     fd_default := None;
     fd_action := Some "store_false";
     fd_type := None; fd_choices := None |}.

(** [args.sort_keys] after parsing a command line on which the flag is
    present or not. *)
Definition parsed_sort_keys (present : bool) : pyval :=
  flag_value sort_keys_argument present PNone.

(** ** Mode resolver *)

(** The six [choices] of [--logging]. *)
Definition logging_choices : list string :=
  ["none"; "debug"; "info"; "warning"; "error"; "critical"].

(** The process-wide logger: whether it is disabled, and its level. *)
Record Logger := { disabled : bool; level : pyval }.

(** Modelled from the spec: [set_log_level] of [utils] is not part of
    the sources at hand; it sets the level threshold of the logger. *)
Definition set_log_level (l : pyval) (logger : Logger) : Logger :=
  {| disabled := disabled logger; level := l |}.

(** [get_logger().disabled = True] *)
Definition disable (logger : Logger) : Logger :=
  {| disabled := true; level := level logger |}.

(** Lines 193 to 205 of [main]: three [if] statements in sequence. *)
Definition resolve_mode (st : Namespace * Logger) : Namespace * Logger :=
  let '(args, logger) := st in
  let args :=
    if testing args
    then set_pause_on_debug (PBool true) (set_logging (PStr "debug") args)
    else args in
  let args :=
    if verbose args then set_logging (PStr "debug") args else args in
  let logger :=
    if quiet args || bool_decide (logging args = PStr "none")
    then disable logger
    else set_log_level (logging args) logger in
  (args, logger).

(** ** Retrieval dispatcher *)

Definition dquote : string := String (Ascii.ascii_of_nat 34) EmptyString.

Section Dispatch.
Context {Message : Type}.

(** What iterating the chat does, step by step: the sequence ends,
    the iteration raises, or it yields an item. With an item come the
    exceptions that formatting and printing it ([print_exn]) and
    writing it ([write_exn]) raise, if any; an interruption of the
    user at any of these points is a [KeyboardInterrupt] there. *)
Inductive stream :=
| StopIteration
| IterRaise (e : exception)
| IterYield (item : Message) (print_exn write_exn : option exception)
            (rest : stream).

(** The chat session [get_chat] returns. *)
Record Chat := {
  title : string;
  is_live : bool;
  dict_repr : string;
  format : Message -> string;
  messages : stream
}.

(** The collaborators of one run: what [downloader.get_chat] returns
    or raises, and what constructing the [ContinuousWriter] raises, if
    anything. *)
Record Collaborators := {
  get_chat_result : outcome Chat;
  writer_exn : option exception
}.

(** The calls [main] makes on its collaborators, in order. *)
Inductive event :=
| Log (level text : string)
| SafePrint (text : string)
| OpenWriter (path indent_ sort_keys_ overwrite_ : pyval)
| Write (item : Message) (flush : bool)
| CloseWriter
| CloseDownloader.

(** The part of the state the dispatch changes: the calls made so far
    and the variable [output_file] ([None], or the writer). *)
Record state := { trace : list event; output_file : option unit }.

Definition M (A : Type) : Type := state -> state * outcome A.

Definition ret {A} (a : A) : M A := fun s => (s, Ok a).

Definition bind {A B} (m : M A) (k : A -> M B) : M B :=
  fun s => match m s with
           | (s', Ok a) => k a s'
           | (s', Raise e) => (s', Raise e)
           end.

Definition raise {A} (e : exception) : M A := fun s => (s, Raise e).

Definition emit (ev : event) : M unit :=
  fun s => ({| trace := trace s ++ [ev]; output_file := output_file s |},
            Ok tt).

Definition set_output_file (w : option unit) : M unit :=
  fun s => ({| trace := trace s; output_file := w |}, Ok tt).

Definition get_output_file : M (option unit) :=
  fun s => (s, Ok (output_file s)).

Definition lift {A} (r : outcome A) : M A := fun s => (s, r).

Definition raise_if (e : option exception) : M unit :=
  match e with
  | Some e => raise e
  | None => ret tt
  end.

(** [try: body  except ...: handler  finally: fin] *)
Definition try_except_finally (body : M unit)
    (handler : exception -> M unit) (fin : M unit) : M unit :=
  fun s =>
    let '(s1, r1) := body s in
    let '(s2, r2) := match r1 with
                     | Ok _ => (s1, Ok tt)
                     | Raise e => handler e s1
                     end in
    let '(s3, r3) := fin s2 in
    (s3, match r3 with Ok _ => r2 | Raise e => Raise e end).

Notation "x <- m ;; k" := (bind m (fun x => k))
  (at level 100, m at next level, right associativity, only parsing).
Notation "m ;;; k" := (bind m (fun _ => k))
  (at level 100, right associativity, only parsing).

Definition log (level text : string) : M unit := emit (Log level text).

Definition print_formatted (args : Namespace) (chat : Chat)
    (item : Message) (print_exn : option exception) : M unit :=
  if negb (quiet args) then
    raise_if print_exn ;;;
    emit (SafePrint (format chat item))
  else ret tt.

Definition write_to_file (args : Namespace) (chat : Chat)
    (item : Message) (print_exn write_exn : option exception) : M unit :=
  print_formatted args chat item print_exn ;;;
  raise_if write_exn ;;;
  emit (Write item true).

(** [for message in chat: callback(message)] *)
Fixpoint for_each
    (callback : Message -> option exception -> option exception -> M unit)
    (s : stream) : M unit :=
  match s with
  | StopIteration => ret tt
  | IterRaise e => raise e
  | IterYield item print_exn write_exn rest =>
      callback item print_exn write_exn ;;;
      for_each callback rest
  end.

Definition try_body (args : Namespace) (w : Collaborators) : M unit :=
  chat <- lift (get_chat_result w) ;;
  log "debug" ("Chat information: " ++ dict_repr chat) ;;;
  log "info" ("Retrieving chat for " ++ dquote ++ title chat ++ dquote ++ ".") ;;;
  callback <-
    (if truthy (output args) then
       raise_if (writer_exn w) ;;;
       emit (OpenWriter (output args) (indent args) (sort_keys args)
                        (overwrite args)) ;;;
       set_output_file (Some tt) ;;;
       ret (write_to_file args chat)
     else
       ret (fun item print_exn _ => print_formatted args chat item print_exn)) ;;
  for_each callback (messages chat) ;;;
  log "info" ("Finished retrieving chat"
              ++ (if is_live chat then EmptyString else " replay") ++ ".").

(** The [except] clauses of [main], in their order. *)
Definition except_clauses (e : exception) : M unit :=
  match kind e with
  | URLNotProvided | SiteNotSupported | LoginRequired | VideoUnavailable
  | NoChatReplay | VideoUnplayable | InvalidParameter | InvalidURL
  | RetriesExceeded => log "error" (message e)
  | NoContinuation => log "info" (message e)
  | ConnectionError =>
      log "error" ("Unable to establish a connection. Please check your internet connection. " ++ message e)
  | RequestException => log "error" (message e)
  | TimeoutException => log "info" (message e)
  | KeyboardInterrupt => log "error" "Keyboard Interrupt"
  | _ => raise e
  end.

Definition finally_clause (args : Namespace) : M unit :=
  emit CloseDownloader ;;;
  output_file <- get_output_file ;;
  if truthy (output args) && bool_decide (is_Some output_file)
  then emit CloseWriter
  else ret tt.

(** [main] from [output_file = None] to its end. *)
Definition dispatch (args : Namespace) (w : Collaborators) : M unit :=
  set_output_file None ;;;
  try_except_finally (try_body args w) except_clauses (finally_clause args).

Definition initial_state : state := {| trace := []; output_file := None |}.

Definition run_dispatch (args : Namespace) (w : Collaborators)
    : list event * outcome unit :=
  let '(s, r) := dispatch args w initial_state in (trace s, r).

(** *** Reading a trace *)

Definition is_close_downloader (ev : event) : bool :=
  match ev with CloseDownloader => true | _ => false end.

Definition is_close_writer (ev : event) : bool :=
  match ev with CloseWriter => true | _ => false end.

Definition is_open_writer (ev : event) : bool :=
  match ev with OpenWriter _ _ _ _ => true | _ => false end.

(** The calls that neither open nor release a resource. *)
Definition is_plain (ev : event) : bool :=
  match ev with
  | Log _ _ | SafePrint _ | Write _ _ => true
  | _ => false
  end.

Fixpoint count (p : event -> bool) (t : list event) : nat :=
  match t with
  | [] => 0
  | ev :: t => (if p ev then 1 else 0) + count p t
  end.

(** The calls of the [try] block before the loop. *)
Definition loop_prelude (args : Namespace) (chat : Chat) : list event :=
  [ Log "debug" ("Chat information: " ++ dict_repr chat);
    Log "info" ("Retrieving chat for " ++ dquote ++ title chat ++ dquote ++ ".") ]
  ++ (if truthy (output args)
      then [OpenWriter (output args) (indent args) (sort_keys args)
                       (overwrite args)]
      else []).

(** The calls of the [finally] block, given [output_file]. *)
Definition cleanup (args : Namespace) (output_file : option unit)
    : list event :=
  CloseDownloader
  :: (if truthy (output args) && bool_decide (is_Some output_file)
      then [CloseWriter] else []).

(** The calls one item causes: the console write unless quiet, then
    the flushed write when an output file was asked for. *)
Definition item_events (args : Namespace) (chat : Chat) (item : Message)
    : list event :=
  (if quiet args then [] else [SafePrint (format chat item)])
  ++ (if truthy (output args) then [Write item true] else []).

(** A stream that yields the given items, none of whose callbacks
    raises, and then goes on as [tail]. *)
Fixpoint yields (items : list Message) (tail : stream) : stream :=
  match items with
  | [] => tail
  | item :: rest => IterYield item None None (yields rest tail)
  end.

(** The state after some more calls. *)
Definition extend (s : state) (evs : list event) : state :=
  {| trace := trace s ++ evs; output_file := output_file s |}.

(** A computation that only makes plain calls and leaves
    [output_file] as it is. *)
Definition plain_step {A} (m : M A) : Prop :=
  forall s, exists evs,
    Forall (fun ev => is_plain ev = true) evs /\ (m s).1 = extend s evs.

(** The callback the [try] block chooses. *)
Definition chosen_callback (args : Namespace) (chat : Chat)
    : Message -> option exception -> option exception -> M unit :=
  if truthy (output args) then write_to_file args chat
  else fun item print_exn _ => print_formatted args chat item print_exn.

(** The last call of the [try] block. *)
Definition finished (chat : Chat) : event :=
  Log "info" ("Finished retrieving chat"
              ++ (if is_live chat then EmptyString else " replay") ++ ".").

End Dispatch.

Arguments stream : clear implicits.
Arguments Chat : clear implicits.
Arguments Collaborators : clear implicits.
Arguments event : clear implicits.
Arguments state : clear implicits.

(** ** Proof-side definitions and running examples *)

Definition entry_of (args : gmap string pyval) (p : doc_param) : info_entry :=
  {| help := description p; default_value := dict_get args (arg_name p) |}.

(** A callable in the shape of [ChatDownloader.get_chat]: [url] has no
    default, and the docstring covers three of the five parameters. *)
Definition example_function : function :=
  {| parameters :=
       [ ("url", None);
         ("start_time", Some PNone);
         ("max_attempts", Some (PInt 15));
         ("max_messages", Some PNone);
         ("pause_on_debug", Some (PBool false)) ];
     doc_params :=
       [ DocParam "url" "The URL of the livestream, video, clip or past broadcast";
         DocParam "max_attempts" "Maximum number of attempts to retrieve chat messages";
         DocParam "pause_on_debug" "Pause on certain debug messages" ] |}.

Definition boolean_flag_kwargs : kwargs :=
  {| kw_is_boolean_flag := Some (PBool true); kw_default := None;
     kw_help := None; kw_action := None; kw_type := None;
     kw_choices := None |}.

(** An introspected namespace in which [pause_on_debug] is true by
    default and [exit_on_debug] has no default. *)
Definition example_chat_info : gmap string info_entry :=
  <["pause_on_debug" :=
      {| help := "Pause on certain debug messages";
         default_value := PBool true |}]>
  (<["exit_on_debug" :=
      {| help := "Exit when something unexpected happens";
         default_value := PNone |}]> ∅).

Definition example_args : Namespace :=
  {| testing := true; verbose := true; quiet := true;
     logging := PStr "info";
     pause_on_debug := PBool false; exit_on_debug := PBool false;
     output := PStr "chat.json"; sort_keys := PBool true;
     indent := PInt 4; overwrite := PBool false |}.

Definition example_logger : Logger := {| disabled := false; level := PNone |}.


(** A replayed chat of three messages, and collaborators that return
    it. *)
Definition example_chat : Chat string :=
  {| title := "Stream"; is_live := false; dict_repr := "{}";
     format := fun item => "> " ++ item;
     messages := yields ["a"; "b"; "c"] StopIteration |}.

Definition example_collaborators : Collaborators string :=
  {| get_chat_result := Ok example_chat; writer_exn := None |}.

(** Collaborators whose [get_chat] raises [LoginRequired]. *)
Definition login_required : exception :=
  Exception LoginRequired "Login is required to view this chat".

Definition failing_collaborators : Collaborators string :=
  {| get_chat_result := Raise login_required; writer_exn := None |}.

(** A namespace for a run with [--output chat.json] and a given
    [args.sort_keys]. *)
Definition output_args (sort_keys_value : pyval) : Namespace :=
  {| testing := false; verbose := false; quiet := false;
     logging := PStr "info";
     pause_on_debug := PBool false; exit_on_debug := PBool false;
     output := PStr "chat.json"; sort_keys := sort_keys_value;
     indent := PInt 4; overwrite := PBool false |}.


(** ** The [splitter] coercion *)

Module Splitter.

(** A Python [str]: its code points. *)
Abbreviation pystr := (list N).

(** The white space of [str]: what the class [\s] of a [str] pattern
    matches and what [strip()] removes. *)
Definition is_space (c : N) : bool :=
  ((9 <=? c) && (c <=? 13) || (28 <=? c) && (c <=? 32)
   || (c =? 133) || (c =? 160) || (c =? 5760)
   || (8192 <=? c) && (c <=? 8202)
   || (c =? 8232) || (c =? 8233) || (c =? 8239) || (c =? 8287)
   || (c =? 12288))%N.

(** The class [[\s,;]] of the pattern. *)
Definition is_separator (c : N) : bool :=
  (is_space c || (c =? 44) || (c =? 59))%N.

(** [re.split] on the runs of separators, reading [s] from the left;
    [prev_sep] tells that the character before [s] was a separator, so
    that the run goes on. The result has the pieces between the runs:
    a run at the start or at the end of the string leaves an empty
    piece there. *)
Fixpoint re_split_from (prev_sep : bool) (s : pystr) : list pystr :=
  match s with
  | [] => [[]]
  | c :: rest =>
      let pieces := re_split_from (is_separator c) rest in
      if is_separator c then
        if prev_sep then pieces else [] :: pieces
      else
        match pieces with
        | piece :: others => (c :: piece) :: others
        | [] => [[c]]
        end
  end.

Definition re_split (s : pystr) : list pystr := re_split_from false s.

Fixpoint lstrip_space (s : pystr) : pystr :=
  match s with
  | [] => []
  | c :: rest => if is_space c then lstrip_space rest else s
  end.

Fixpoint rstrip_space (s : pystr) : pystr :=
  match s with
  | [] => []
  | c :: rest =>
      match rstrip_space rest with
      | [] => if is_space c then [] else [c]
      | kept => c :: kept
      end
  end.

(** [item.strip()] *)
Definition strip (s : pystr) : pystr := rstrip_space (lstrip_space s).

Definition splitter (s : pystr) : list pystr := map strip (re_split s).

(** The code points of a literal. *)
Definition of_string (s : string) : pystr :=
  map N_of_ascii (list_ascii_of_string s).

(** [sep.join(items)] *)
Fixpoint join (sep : pystr) (items : list pystr) : pystr :=
  match items with
  | [] => []
  | [item] => item
  | item :: others => (item ++ sep ++ join sep others)%list
  end.

(** Every piece but the last is not empty. *)
Fixpoint all_but_last_nonempty (pieces : list pystr) : Prop :=
  match pieces with
  | [] => True
  | piece :: others =>
      match others with
      | [] => True
      | _ => piece <> [] /\ all_but_last_nonempty others
      end
  end.

Definition clean (item : pystr) : Prop :=
  Forall (fun c => is_separator c = false) item.

End Splitter.

(** ** The parameters forwarded to the downloader *)

(** [getattr(args, k, None)] on the attributes of the namespace. *)
Definition getattr (attrs : gmap string pyval) (k : string) : pyval :=
  default PNone (attrs !! k).

(** The comprehension that builds [chat_params] and [init_params]: one
    entry for each key of [info]. *)
Definition forwarded_params (info : gmap string info_entry)
    (attrs : gmap string pyval) : gmap string pyval :=
  map_imap (fun k _ => Some (getattr attrs k)) info.

(** ** The argument groups of [main] *)

Definition outcome_bind {A B} (r : outcome A) (k : A -> outcome B)
    : outcome B :=
  match r with
  | Ok a => k a
  | Raise e => Raise e
  end.

(** The groups [main] fills, each with its arguments in the order of
    registration. [type_options], [on_debug_options] and
    [debug_options] are the mutually exclusive ones. *)
Record ArgumentGroups := {
  time_group : list FlagDefinition;
  type_options : list FlagDefinition;
  retry_group : list FlagDefinition;
  termination_group : list FlagDefinition;
  format_group : list FlagDefinition;
  youtube_group : list FlagDefinition;
  twitch_group : list FlagDefinition;
  output_group : list FlagDefinition;
  on_debug_options : list FlagDefinition;
  debug_options : list FlagDefinition;
  init_group : list FlagDefinition
}.

Definition with_type (t : coercion) : kwargs :=
  {| kw_is_boolean_flag := None; kw_default := None; kw_help := None;
     kw_action := None; kw_type := Some t; kw_choices := None |}.

Definition with_choices (c : list string) : kwargs :=
  {| kw_is_boolean_flag := None; kw_default := None; kw_help := None;
     kw_action := None; kw_type := None; kw_choices := Some c |}.

Definition with_action (help_text action : string) : kwargs :=
  {| kw_is_boolean_flag := None; kw_default := None;
     kw_help := Some help_text; kw_action := Some action;
     kw_type := None; kw_choices := None |}.

(** Lines 95 to 184 of [main]: the calls that fill the argument groups,
    in their order. The two arguments of the parser itself
    ([--version] and [url]) are registered before and are in no
    group. *)
Definition build_groups (get_chat_info get_init_info : gmap string info_entry)
    : outcome ArgumentGroups :=
  let chat := add_chat_param get_chat_info get_init_info in
  let init := add_init_param get_chat_info get_init_info in
  outcome_bind (chat [] ["--start_time"; "-s"] no_kwargs) (fun g =>
  outcome_bind (chat g ["--end_time"; "-e"] no_kwargs) (fun time_group_ =>
  outcome_bind (chat [] ["--message_types"] (with_type splitter)) (fun g =>
  outcome_bind (chat g ["--message_groups"] (with_type splitter)) (fun type_options_ =>
  outcome_bind (chat [] ["--max_attempts"] (with_type py_int)) (fun g =>
  outcome_bind (chat g ["--retry_timeout"] (with_type py_float)) (fun retry_group_ =>
  outcome_bind (chat [] ["--max_messages"] (with_type py_int)) (fun g =>
  outcome_bind (chat g ["--inactivity_timeout"] (with_type py_float)) (fun g =>
  outcome_bind (chat g ["--timeout"] (with_type py_float)) (fun termination_group_ =>
  outcome_bind (chat [] ["--format"] no_kwargs) (fun g =>
  outcome_bind (chat g ["--format_file"] no_kwargs) (fun format_group_ =>
  outcome_bind (chat [] ["--chat_type"] (with_choices ["live"; "top"])) (fun youtube_group_ =>
  outcome_bind (chat [] ["--message_receive_timeout"] (with_type py_float)) (fun g =>
  outcome_bind (chat g ["--buffer_size"] (with_type py_int)) (fun twitch_group_ =>
  let g := add_argument [] ["--output"; "-o"]
             {| kw_is_boolean_flag := None; kw_default := Some PNone;
                kw_help := Some "Path of the output file, default is None (i.e. print to standard output)";
                kw_action := None; kw_type := None; kw_choices := None |} in
  let g := add_argument g ["--sort_keys"]
             (with_action "Sort keys when outputting to a file" "store_false") in
  let g := add_argument g ["--indent"]
             {| kw_is_boolean_flag := None; kw_default := Some (PInt 4);
                kw_help := Some "Number of spaces to indent JSON objects by. If nonnumerical input is provided, this will be used to indent the objects.";
                kw_action := None; kw_type := Some try_parse_int;
                kw_choices := None |} in
  let output_group_ :=
    add_argument g ["--overwrite"]
      (with_action "Overwrite output file if it exists. Otherwise, append to the end of the file." "store_true") in
  outcome_bind (chat [] ["--pause_on_debug"] boolean_flag_kwargs) (fun g =>
  outcome_bind (chat g ["--exit_on_debug"] boolean_flag_kwargs) (fun on_debug_options_ =>
  outcome_bind (chat [] ["--logging"]
                  (with_choices ["none"; "debug"; "info"; "warning"; "error"; "critical"])) (fun g =>
  let g := add_argument g ["--testing"]
             (with_action "Enable testing mode. This is equivalent to setting logging to debug and enabling pause_on_debug" "store_true") in
  let g := add_argument g ["--verbose"; "-v"]
             (with_action "Print various debugging information. This is equivalent to setting logging to debug" "store_true") in
  let debug_options_ :=
    add_argument g ["--quiet"; "-q"]
      (with_action "Activate quiet mode (hide all output)" "store_true") in
  outcome_bind (init [] ["--cookies"; "-c"] no_kwargs) (fun g =>
  outcome_bind (init g ["--proxy"; "-p"] no_kwargs) (fun init_group_ =>
  Ok {| time_group := time_group_; type_options := type_options_;
        retry_group := retry_group_;
        termination_group := termination_group_;
        format_group := format_group_; youtube_group := youtube_group_;
        twitch_group := twitch_group_; output_group := output_group_;
        on_debug_options := on_debug_options_;
        debug_options := debug_options_;
        init_group := init_group_ |}))))))))))))))))))).

(** The names [main] registers from the chat namespace and from the
    init namespace, in the order of registration. *)
Definition chat_flag_names : list string :=
  [ "start_time"; "end_time"; "message_types"; "message_groups";
    "max_attempts"; "retry_timeout"; "max_messages"; "inactivity_timeout";
    "timeout"; "format"; "format_file"; "chat_type";
    "message_receive_timeout"; "buffer_size"; "pause_on_debug";
    "exit_on_debug"; "logging" ].

Definition init_flag_names : list string := [ "cookies"; "proxy" ].

(** All the flags of the groups. *)
Definition all_flags (g : ArgumentGroups) : list FlagDefinition :=
  time_group g ++ type_options g ++ retry_group g ++ termination_group g
  ++ format_group g ++ youtube_group g ++ twitch_group g ++ output_group g
  ++ on_debug_options g ++ debug_options g ++ init_group g.

Definition is_missing (info : gmap string info_entry) (name : string) : bool :=
  match info !! name with
  | Some _ => false
  | None => true
  end.

(** The first of [names] without entry in [info]. *)
Definition first_missing (info : gmap string info_entry)
    (names : list string) : option string :=
  List.find (is_missing info) names.

(** A flag registered from a namespace carries the help and the default
    of its introspected entry. *)
Definition from_info (ci ii : gmap string info_entry) (fd : FlagDefinition)
    : Prop :=
  match fd_keys fd with
  | [] => False
  | key0 :: _ =>
      let name := lstrip "-"%char key0 in
      if bool_decide (name ∈ chat_flag_names) then
        fd_default fd = default_value <$> ci !! name
        /\ fd_help fd = help <$> ci !! name
      else if bool_decide (name ∈ init_flag_names) then
        fd_default fd = default_value <$> ii !! name
        /\ fd_help fd = help <$> ii !! name
      else True
  end.

(** ** The calls a run can make *)

Section Allowed.
Context {Message : Type}.

(** The calls the namespace allows: console writes unless [quiet] is
    set; the writer opened with the entries of the namespace, flushed
    writes and the closing of the writer only with an output file. *)
Definition allowed (args : Namespace) (ev : event Message) : bool :=
  match ev with
  | Log _ _ => true
  | CloseDownloader => true
  | SafePrint _ => negb (quiet args)
  | OpenWriter path indent_ sort_keys_ overwrite_ =>
      truthy (output args)
      && bool_decide (path = output args ∧ indent_ = indent args
                      ∧ sort_keys_ = sort_keys args
                      ∧ overwrite_ = overwrite args)
  | Write _ flush => truthy (output args) && flush
  | CloseWriter => truthy (output args)
  end.

Definition is_log (ev : event Message) : bool :=
  match ev with Log _ _ => true | _ => false end.

Definition is_safe_print (ev : event Message) : bool :=
  match ev with SafePrint _ => true | _ => false end.

Definition is_write (ev : event Message) : bool :=
  match ev with Write _ _ => true | _ => false end.

(** A computation all of whose calls satisfy [P]. *)
Definition emits {A} (P : event Message -> bool) (m : M A) : Prop :=
  forall s, exists evs,
    Forall (fun ev => P ev = true) evs /\ trace (m s).1 = (trace s ++ evs)%list.

End Allowed.

(** A chat whose third item cannot be written. *)
Definition disk_full : exception :=
  Exception (OtherException "OSError") "No space left on device".

Definition failing_write_chat : Chat string :=
  {| title := "Stream"; is_live := true; dict_repr := "{}";
     format := fun item => "> " ++ item;
     messages := yields ["a"; "b"]
                   (IterYield "c" None (Some disk_full)
                      (yields ["d"] StopIteration)) |}.

Definition failing_write_collaborators : Collaborators string :=
  {| get_chat_result := Ok failing_write_chat; writer_exn := None |}.

Definition failing_writer_collaborators : Collaborators string :=
  {| get_chat_result := Ok example_chat; writer_exn := Some disk_full |}.

(** Namespaces that document every name [main] registers. *)
Definition full_chat_info : gmap string info_entry :=
  list_to_map (map (fun name => (name, {| help := "About " ++ name;
                                          default_value := PNone |}))
                   chat_flag_names).

Definition full_init_info : gmap string info_entry :=
  list_to_map (map (fun name => (name, {| help := "About " ++ name;
                                          default_value := PNone |}))
                   init_flag_names).

(** A namespace for a run without output file. *)
Definition console_args : Namespace :=
  {| testing := false; verbose := false; quiet := false;
     logging := PStr "info";
     pause_on_debug := PBool false; exit_on_debug := PBool false;
     output := PNone; sort_keys := PBool true;
     indent := PInt 4; overwrite := PBool false |}.
(** * Properties *)

(** ** Parameter introspector *)

Lemma get_info_step_unfold args info p :
  get_info_step args info p = <[arg_name p := entry_of args p]> info.
Proof. reflexivity. Qed.

Lemma foldl_info_other args (l : list doc_param) :
  ∀ (info : gmap string info_entry) name,
    name ∉ arg_name <$> l →
    foldl (get_info_step args) info l !! name = info !! name.
Proof.
  induction l as [|p l IH]; intros info name Hnot; simpl; [done|].
  rewrite fmap_cons, not_elem_of_cons in Hnot. destruct Hnot as [Hne Hl].
  rewrite IH by done. rewrite get_info_step_unfold.
  by rewrite lookup_insert_ne.
Qed.

Lemma foldl_info_documented args (l : list doc_param) :
  ∀ (info : gmap string info_entry) name,
    name ∈ arg_name <$> l →
    ∃ q, q ∈ l ∧ arg_name q = name ∧
         foldl (get_info_step args) info l !! name = Some (entry_of args q).
Proof.
  induction l as [|p l IH]; intros info name Hin; simpl.
  { by apply elem_of_nil in Hin. }
  destruct (decide (name ∈ arg_name <$> l)) as [Hl|Hl].
  - destruct (IH (get_info_step args info p) name Hl) as (q & Hq & Hn & Hlk).
    exists q. split; [by apply elem_of_cons; right|done].
  - rewrite fmap_cons, elem_of_cons in Hin.
    destruct Hin as [->|Hin]; [|done].
    exists p. split; [by apply elem_of_cons; left|]. split; [done|].
    rewrite foldl_info_other by done.
    rewrite get_info_step_unfold. apply lookup_insert_eq.
Qed.

Lemma foldl_info_nodup args (l : list doc_param) :
  ∀ (info : gmap string info_entry) p,
    NoDup (arg_name <$> l) → p ∈ l →
    foldl (get_info_step args) info l !! arg_name p = Some (entry_of args p).
Proof.
  induction l as [|q l IH]; intros info p Hnd Hin; simpl.
  { by apply elem_of_nil in Hin. }
  rewrite fmap_cons, NoDup_cons in Hnd. destruct Hnd as [Hq Hnd].
  apply elem_of_cons in Hin. destruct Hin as [->|Hin].
  - rewrite foldl_info_other by done.
    rewrite get_info_step_unfold. apply lookup_insert_eq.
  - by apply IH.
Qed.

Lemma foldl_info_size args (l : list doc_param) :
  ∀ (info : gmap string info_entry),
    NoDup (arg_name <$> l) →
    (∀ name, name ∈ arg_name <$> l → info !! name = None) →
    size (foldl (get_info_step args) info l) = size info + length l.
Proof.
  induction l as [|p l IH]; intros info Hnd Hfresh; simpl; [lia|].
  rewrite fmap_cons, NoDup_cons in Hnd. destruct Hnd as [Hp Hnd].
  rewrite IH; [|done|].
  - rewrite get_info_step_unfold, map_size_insert_None; [lia|].
    apply Hfresh. rewrite fmap_cons. apply elem_of_cons. by left.
  - intros name Hname. rewrite get_info_step_unfold.
    rewrite lookup_insert_ne.
    + apply Hfresh. rewrite fmap_cons. apply elem_of_cons. by right.
    + intros <-. done.
Qed.

Lemma get_default_args_unfold f :
  get_default_args f = foldl default_args_step ∅ (parameters f).
Proof. reflexivity. Qed.

Lemma default_args_declared (ps : list (string * option pyval)) name d :
  foldl default_args_step ∅ ps !! name = Some d → (name, Some d) ∈ ps.
Proof.
  induction ps as [|p ps IH] using rev_ind; simpl.
  { by rewrite lookup_empty. }
  rewrite foldl_snoc. unfold default_args_step at 1.
  destruct p as [k [d'|]]; simpl.
  - rewrite lookup_insert. case_decide as Hk.
    + intros [= <-]. subst. apply elem_of_app. right. by apply list_elem_of_singleton.
    + intros H. apply elem_of_app. left. by apply IH.
  - intros H. apply elem_of_app. left. by apply IH.
Qed.

Lemma default_args_lookup (ps : list (string * option pyval)) name d :
  NoDup ps.*1 → (name, Some d) ∈ ps →
  foldl default_args_step ∅ ps !! name = Some d.
Proof.
  induction ps as [|p ps IH] using rev_ind; intros Hnd Hin.
  { by apply elem_of_nil in Hin. }
  rewrite fmap_app, NoDup_app in Hnd. destruct Hnd as (Hnd & Hdisj & _).
  rewrite foldl_snoc. unfold default_args_step at 1.
  apply elem_of_app in Hin. destruct Hin as [Hin|Hin].
  - assert (name ≠ p.1) as Hne.
    { intros ->. apply (Hdisj p.1).
      + apply (list_elem_of_fmap_2 fst) in Hin. done.
      + simpl. apply list_elem_of_singleton. done. }
    destruct (p.2); [rewrite lookup_insert_ne by done|]; by apply IH.
  - apply list_elem_of_singleton in Hin. subst p. simpl.
    apply lookup_insert_eq.
Qed.

(** C2, as stated, fails: of the five parameters of [example_function]
    only the three documented ones get an entry; [start_time], which
    has no documentation entry, gets none (not one with empty help). *)
Lemma get_info_undocumented_counterexample :
  size (get_info example_function) ≠ length (parameters example_function)
  ∧ get_info example_function !! "start_time" = None.
Proof. split; [vm_compute; lia | vm_compute; reflexivity]. Qed.

(** C2, amended: for a function whose documentation entries name
    distinct parameters, [get_info] produces exactly one entry per
    documentation entry and none for any other name; the entry's help
    is the description of the documentation entry, and its default is
    the default the signature declares for that name, [None] when the
    signature declares none. *)
Theorem get_info_entries (f : function) :
  NoDup (arg_name <$> doc_params f) →
  NoDup (parameters f).*1 →
  size (get_info f) = length (doc_params f)
  ∧ (∀ name, name ∉ arg_name <$> doc_params f → get_info f !! name = None)
  ∧ (∀ p, p ∈ doc_params f →
       ∃ e, get_info f !! arg_name p = Some e
            ∧ help e = description p
            ∧ (∀ d, (arg_name p, Some d) ∈ parameters f → default_value e = d)
            ∧ ((∀ d, (arg_name p, Some d) ∉ parameters f) →
               default_value e = PNone)).
Proof.
  intros Hdoc Hsig. unfold get_info. split; [|split].
  - rewrite foldl_info_size; [by rewrite map_size_empty| done |].
    intros name _. apply lookup_empty.
  - intros name Hname. rewrite foldl_info_other by done. apply lookup_empty.
  - intros p Hp. exists (entry_of (get_default_args f) p).
    split; [by apply foldl_info_nodup|]. split; [done|].
    simpl. unfold dict_get. rewrite get_default_args_unfold. split.
    + intros d Hd. by rewrite (default_args_lookup _ _ d).
    + intros Hnone.
      destruct (foldl default_args_step ∅ (parameters f) !! arg_name p)
        as [d|] eqn:Hlk; [|done].
      apply default_args_declared in Hlk. by apply Hnone in Hlk.
Qed.

Lemma get_info_entries_witness :
  size (get_info example_function) = 3
  ∧ get_info example_function !! "max_messages" = None.
Proof.
  destruct (get_info_entries example_function) as (Hsize & Hnone & _).
  - apply (bool_decide_unpack _). vm_compute. reflexivity.
  - apply (bool_decide_unpack _). vm_compute. reflexivity.
  - split; [exact Hsize|]. apply Hnone.
    apply (bool_decide_unpack _). vm_compute. reflexivity.
Defined.

(** C3, as stated, fails: [url] is documented and has no default in the
    signature of [example_function], and [get_info] returns an entry
    for it whose default is [None]; nothing is raised. *)
Lemma get_info_missing_default_counterexample :
  DocParam "url" "The URL of the livestream, video, clip or past broadcast"
    ∈ doc_params example_function
  ∧ (∀ d, ("url", Some d) ∉ parameters example_function)
  ∧ get_info example_function !! "url"
    = Some {| help := "The URL of the livestream, video, clip or past broadcast";
              default_value := PNone |}.
Proof.
  split; [|split].
  - apply (bool_decide_unpack _). vm_compute. reflexivity.
  - intros d Hd. simpl in Hd.
    repeat (apply elem_of_cons in Hd; destruct Hd as [Hd|Hd]; [discriminate Hd|]).
    by apply elem_of_nil in Hd.
  - vm_compute. reflexivity.
Qed.

(** C3, amended: for a parameter that appears in the documentation and
    has no default in the signature, [get_info] signals nothing; it
    produces an entry for the parameter whose default is [None]. *)
Theorem get_info_missing_default (f : function) (p : doc_param) :
  p ∈ doc_params f →
  (∀ d, (arg_name p, Some d) ∉ parameters f) →
  ∃ e, get_info f !! arg_name p = Some e ∧ default_value e = PNone.
Proof.
  intros Hp Hnone. unfold get_info.
  destruct (foldl_info_documented (get_default_args f) (doc_params f) ∅
              (arg_name p)) as (q & Hq & Hname & Hlk).
  { by apply list_elem_of_fmap_2. }
  exists (entry_of (get_default_args f) q). split; [done|].
  simpl. unfold dict_get. rewrite Hname, get_default_args_unfold.
  destruct (foldl default_args_step ∅ (parameters f) !! arg_name p)
    as [d|] eqn:Hd; [|done].
  apply default_args_declared in Hd. by apply Hnone in Hd.
Qed.

Lemma get_info_missing_default_witness :
  ∃ e, get_info example_function !! "url" = Some e ∧ default_value e = PNone.
Proof.
  apply (get_info_missing_default example_function
           (DocParam "url" "The URL of the livestream, video, clip or past broadcast")).
  - apply (bool_decide_unpack _). vm_compute. reflexivity.
  - intros d Hd. simpl in Hd.
    repeat (apply elem_of_cons in Hd; destruct Hd as [Hd|Hd]; [discriminate Hd|]).
    by apply elem_of_nil in Hd.
Defined.

(** ** Flag synthesizer *)

(** In boolean-flag mode the registered definition carries the help and
    the default of the introspected entry, and the action computed from
    the [default] keyword of the call. *)
Lemma add_param_boolean_flag ci ii param_type group key0 keys kw entry :
  (if String.eqb param_type "chat" then ci else ii) !! lstrip "-"%char key0
    = Some entry →
  truthy (default PNone (kw_is_boolean_flag kw)) = true →
  kw_help kw = None →
  add_param ci ii param_type group (key0 :: keys) kw
  = Ok (group ++ [ {| fd_keys := key0 :: keys;
                      fd_help := Some (help entry);
                      fd_default := Some (default_value entry);
                      fd_action := Some (boolean_flag_action kw);
                      fd_type := kw_type kw;
                      fd_choices := kw_choices kw |} ])%list.
Proof.
  intros Hentry Hflag Hhelp. unfold add_param, pop_boolean_flag.
  rewrite Hflag, Hentry. unfold merge_keywords. simpl. rewrite Hhelp.
  reflexivity.
Qed.

(** C4 on the code: [add_chat_param(group, '--pause_on_debug',
    is_boolean_flag=True)] for a parameter whose introspected default is
    true registers a [store_true] flag with default true, so the flag
    stores true when present (and true when absent): the action is
    computed from the [default] keyword of the call, which is not
    passed, and not from the introspected default. *)
Theorem boolean_flag_true_default_not_negated :
  ∃ fd,
    add_chat_param example_chat_info ∅ [] ["--pause_on_debug"]
      boolean_flag_kwargs = Ok [fd]
    ∧ fd_default fd = Some (PBool true)
    ∧ fd_action fd = Some "store_true"
    ∧ flag_value fd true PNone = PBool true
    ∧ flag_value fd false PNone = PBool true.
Proof.
  eexists. split; [vm_compute; reflexivity|]. vm_compute. tauto.
Qed.

(** C10: the two parameters [main] selects for boolean-flag mode, in
    the calls it makes for them (the one spelling [--name], the keyword
    [is_boolean_flag=True] and no other, first [pause_on_debug] in the
    empty group [on_debug_options], then [exit_on_debug] in that group
    after it). If the introspected default of the parameter is [None],
    the call does not fail; it registers the flag with the action
    [store_true], as for a default that is false: the namespace entry
    is true when the flag is present, and the [None] of the entry when
    it is absent. *)
Theorem boolean_flag_missing_default
    (ci ii : gmap string info_entry) (operand : pyval) :
  (∀ entry,
     ci !! "pause_on_debug" = Some entry →
     default_value entry = PNone →
     ∃ fd,
       add_chat_param ci ii [] ["--pause_on_debug"] boolean_flag_kwargs
       = Ok [fd]
       ∧ fd_action fd = Some "store_true"
       ∧ flag_value fd true operand = PBool true
       ∧ flag_value fd false operand = PNone)
  ∧ (∀ group entry,
       add_chat_param ci ii [] ["--pause_on_debug"] boolean_flag_kwargs
       = Ok group →
       ci !! "exit_on_debug" = Some entry →
       default_value entry = PNone →
       ∃ fd,
         add_chat_param ci ii group ["--exit_on_debug"] boolean_flag_kwargs
         = Ok (group ++ [fd])%list
         ∧ fd_action fd = Some "store_true"
         ∧ flag_value fd true operand = PBool true
         ∧ flag_value fd false operand = PNone).
Proof.
  split.
  - intros entry Hentry Hnone. eexists. split.
    + unfold add_chat_param.
      by apply (add_param_boolean_flag ci ii "chat" [] "--pause_on_debug" []
                  boolean_flag_kwargs entry).
    + unfold flag_value, flag_default. simpl. by rewrite Hnone.
  - intros group entry _ Hentry Hnone. eexists. split.
    + unfold add_chat_param.
      by apply (add_param_boolean_flag ci ii "chat" group "--exit_on_debug" []
                  boolean_flag_kwargs entry).
    + unfold flag_value, flag_default. simpl. by rewrite Hnone.
Qed.

Lemma boolean_flag_missing_default_witness :
  (∃ fd,
     add_chat_param full_chat_info full_init_info [] ["--pause_on_debug"]
       boolean_flag_kwargs = Ok [fd]
     ∧ fd_action fd = Some "store_true"
     ∧ flag_value fd true PNone = PBool true
     ∧ flag_value fd false PNone = PNone)
  ∧ (∃ fd,
       add_chat_param full_chat_info full_init_info
         [ {| fd_keys := ["--pause_on_debug"];
              fd_help := Some "About pause_on_debug";
              fd_default := Some PNone;
              fd_action := Some "store_true";
              fd_type := None; fd_choices := None |} ]
         ["--exit_on_debug"] boolean_flag_kwargs
       = Ok ([ {| fd_keys := ["--pause_on_debug"];
                  fd_help := Some "About pause_on_debug";
                  fd_default := Some PNone;
                  fd_action := Some "store_true";
                  fd_type := None; fd_choices := None |} ] ++ [fd])%list
       ∧ fd_action fd = Some "store_true"
       ∧ flag_value fd true PNone = PBool true
       ∧ flag_value fd false PNone = PNone).
Proof.
  destruct (boolean_flag_missing_default full_chat_info full_init_info PNone)
    as [Hpause Hexit].
  split.
  - apply (Hpause {| help := "About pause_on_debug"; default_value := PNone |}).
    + vm_compute. reflexivity.
    + reflexivity.
  - apply (Hexit _ {| help := "About exit_on_debug"; default_value := PNone |}).
    + vm_compute. reflexivity.
    + vm_compute. reflexivity.
    + reflexivity.
Defined.

(** ** Mode resolver *)

Lemma resolve_mode_flags (args : Namespace) (logger : Logger) :
  testing (resolve_mode (args, logger)).1 = testing args
  ∧ verbose (resolve_mode (args, logger)).1 = verbose args
  ∧ quiet (resolve_mode (args, logger)).1 = quiet args.
Proof.
  destruct args as [t v q l p e o sk i ow]. unfold resolve_mode.
  destruct t, v; done.
Qed.

(** C5: the three rules of the resolver are applied one after the
    other, whatever the combination of flags: [testing] sets the level
    to debug and [pause_on_debug] to true, [verbose] sets the level to
    debug, and [quiet] disables the logger whatever the level is; when
    the logger is not disabled, the level it is given is that debug
    level. *)
Theorem resolve_mode_applies_every_rule (args : Namespace) (logger : Logger) :
  (testing args = true →
     logging (resolve_mode (args, logger)).1 = PStr "debug"
     ∧ pause_on_debug (resolve_mode (args, logger)).1 = PBool true)
  ∧ (verbose args = true →
     logging (resolve_mode (args, logger)).1 = PStr "debug")
  ∧ (quiet args = true → disabled (resolve_mode (args, logger)).2 = true)
  ∧ (testing args || verbose args = true → quiet args = false →
     level (resolve_mode (args, logger)).2 = PStr "debug").
Proof.
  destruct args as [t v q l p e o sk i ow]. unfold resolve_mode. simpl.
  destruct t, v, q; simpl; repeat split; intros; done.
Qed.

Lemma resolve_mode_applies_every_rule_witness :
  logging (resolve_mode (example_args, example_logger)).1 = PStr "debug"
  ∧ pause_on_debug (resolve_mode (example_args, example_logger)).1 = PBool true
  ∧ disabled (resolve_mode (example_args, example_logger)).2 = true.
Proof.
  destruct (resolve_mode_applies_every_rule example_args example_logger)
    as (Ht & Hv & Hq & _).
  destruct (Ht eq_refl) as [Hl Hp].
  split; [exact Hl|]. split; [exact Hp|]. exact (Hq eq_refl).
Defined.

(** C6: the resolver is a total function, it keeps the level among the
    six choices for every combination of [testing], [verbose] and
    [quiet], and resolving its own output again changes nothing. *)
Theorem resolve_mode_total_idempotent (args : Namespace) (logger : Logger) :
  logging args ∈ PStr <$> logging_choices →
  logging (resolve_mode (args, logger)).1 ∈ PStr <$> logging_choices
  ∧ resolve_mode (resolve_mode (args, logger)) = resolve_mode (args, logger).
Proof.
  intros Hvalid. split.
  - unfold resolve_mode.
    assert (PStr "debug" ∈ PStr <$> logging_choices) as Hdebug.
    { apply (bool_decide_unpack _). vm_compute. reflexivity. }
    destruct (testing args) eqn:Ht, (verbose args) eqn:Hv; simpl;
      rewrite ?Ht, ?Hv; simpl; done.
  - destruct args as [t v q l p e o sk i ow], logger as [d lv].
    unfold resolve_mode. destruct t, v, q; simpl; try reflexivity;
      destruct (bool_decide (l = PStr "none")) eqn:Hl; simpl;
      rewrite ?Hl; reflexivity.
Qed.

Lemma resolve_mode_total_idempotent_witness :
  logging (resolve_mode (example_args, example_logger)).1
    ∈ PStr <$> logging_choices
  ∧ resolve_mode (resolve_mode (example_args, example_logger))
    = resolve_mode (example_args, example_logger).
Proof.
  apply (resolve_mode_total_idempotent example_args example_logger).
  apply (bool_decide_unpack _). vm_compute. reflexivity.
Defined.

(** ** Retrieval dispatcher *)

Section DispatchProperties.
Context {Message : Type}.
Local Open Scope list_scope.
Implicit Types (s : state Message) (evs : list (event Message)).
Implicit Types (args : Namespace) (chat : Chat Message).

Lemma extend_nil s : extend s [] = s.
Proof. destruct s. unfold extend. simpl. by rewrite app_nil_r. Qed.

Lemma extend_extend s evs1 evs2 :
  extend (extend s evs1) evs2 = extend s (evs1 ++ evs2).
Proof. unfold extend. simpl. by rewrite app_assoc. Qed.

Lemma count_app (p : event Message → bool) evs1 evs2 :
  count p (evs1 ++ evs2) = count p evs1 + count p evs2.
Proof. induction evs1 as [|ev evs1 IH]; simpl; [done|]. rewrite IH. lia. Qed.

Lemma count_plain evs :
  Forall (λ ev, is_plain ev = true) evs →
  count is_close_downloader evs = 0
  ∧ count is_close_writer evs = 0
  ∧ count is_open_writer evs = 0.
Proof.
  induction 1 as [|ev evs Hev _ (IH1 & IH2 & IH3)]; simpl; [done|].
  rewrite IH1, IH2, IH3. by destruct ev.
Qed.

(** *** Plain steps *)

Lemma plain_ret {A} (a : A) : plain_step (Message := Message) (ret a).
Proof. intros s. exists []. split; [constructor|]. simpl. by rewrite extend_nil. Qed.

Lemma plain_raise {A} e : plain_step (Message := Message) (A := A) (raise e).
Proof. intros s. exists []. split; [constructor|]. simpl. by rewrite extend_nil. Qed.

Lemma plain_emit (ev : event Message) :
  is_plain ev = true → plain_step (emit ev).
Proof. intros Hev s. exists [ev]. split; [by repeat constructor|done]. Qed.

Lemma plain_bind {A B} (m : M (Message := Message) A) (k : A → M B) :
  plain_step m → (∀ a, plain_step (k a)) → plain_step (bind m k).
Proof.
  intros Hm Hk s. destruct (Hm s) as (evs1 & F1 & E1). unfold bind.
  destruct (m s) as [s1 [a|e]]; simpl in E1; subst s1.
  - destruct (Hk a (extend s evs1)) as (evs2 & F2 & E2).
    exists (evs1 ++ evs2). split; [by apply Forall_app|].
    by rewrite E2, extend_extend.
  - by exists evs1.
Qed.

Lemma plain_raise_if e : plain_step (Message := Message) (raise_if e).
Proof. destruct e; [apply plain_raise|apply plain_ret]. Qed.

Lemma plain_print_formatted args chat item print_exn :
  plain_step (print_formatted args chat item print_exn).
Proof.
  unfold print_formatted. destruct (negb (quiet args)); [|apply plain_ret].
  apply plain_bind; [apply plain_raise_if|]. intros _. by apply plain_emit.
Qed.

Lemma plain_write_to_file args chat item print_exn write_exn :
  plain_step (write_to_file args chat item print_exn write_exn).
Proof.
  unfold write_to_file.
  apply plain_bind; [apply plain_print_formatted|]. intros _.
  apply plain_bind; [apply plain_raise_if|]. intros _. by apply plain_emit.
Qed.

Lemma plain_chosen_callback args chat item print_exn write_exn :
  plain_step (chosen_callback args chat item print_exn write_exn).
Proof.
  unfold chosen_callback. destruct (truthy (output args)).
  - apply plain_write_to_file.
  - apply plain_print_formatted.
Qed.

Lemma plain_for_each callback (st : stream Message) :
  (∀ item print_exn write_exn,
      plain_step (callback item print_exn write_exn)) →
  plain_step (for_each callback st).
Proof.
  intros Hcb. induction st as [|e|item print_exn write_exn rest IH]; simpl.
  - apply plain_ret.
  - apply plain_raise.
  - apply plain_bind; [apply Hcb|]. intros _. apply IH.
Qed.

Lemma plain_except_clauses e : plain_step (Message := Message) (except_clauses e).
Proof.
  unfold except_clauses, log.
  destruct (kind e); first [by apply plain_emit | apply plain_raise].
Qed.

(** *** The blocks of [dispatch] *)

Lemma finally_clause_run args s :
  finally_clause args s = (extend s (cleanup args (output_file s)), Ok tt).
Proof.
  unfold finally_clause, bind, emit, get_output_file, cleanup, extend.
  simpl.
  destruct (truthy (output args) && bool_decide (is_Some (output_file s)));
    simpl; [by rewrite <- app_assoc|done].
Qed.

Lemma try_body_shape args w s :
  output_file s = None →
  ∃ evs,
    trace (try_body args w s).1 = trace s ++ evs
    ∧ count is_close_downloader evs = 0
    ∧ count is_close_writer evs = 0
    ∧ ((output_file (try_body args w s).1 = Some tt
        ∧ truthy (output args) = true
        ∧ count is_open_writer evs = 1)
       ∨ (output_file (try_body args w s).1 = None
          ∧ count is_open_writer evs = 0)).
Proof.
  intros Hnone. unfold try_body.
  unfold bind, lift, log, emit, raise_if, raise, ret, set_output_file.
  destruct (get_chat_result w) as [chat|e]; simpl.
  2: { exists []. rewrite app_nil_r. repeat (split; [done|]). by right. }
  destruct (truthy (output args)) eqn:Hout; simpl.
  - destruct (writer_exn w) as [e|]; simpl.
    { eexists [_; _]. rewrite <- app_assoc. simpl.
      repeat (split; [done|]). by right. }
    match goal with
    | |- context [for_each ?cb ?st ?s0] =>
        destruct (plain_for_each cb st
                    (plain_write_to_file args chat) s0) as (evs & F & E);
        destruct (for_each cb st s0) as [s1 [[]|e]]
    end; simpl in E; subst s1; simpl;
      destruct (count_plain evs F) as (C1 & C2 & C3).
    + eexists (_ :: _ :: _ :: evs ++ [_]).
      repeat rewrite <- app_assoc. simpl.
      rewrite !count_app, C1, C2, C3. simpl.
      repeat (split; [done|]). by left.
    + eexists (_ :: _ :: _ :: evs).
      repeat rewrite <- app_assoc. simpl. rewrite C1, C2, C3.
      repeat (split; [done|]). by left.
  - match goal with
    | |- context [for_each ?cb ?st ?s0] =>
        destruct (plain_for_each cb st
                    (λ item print_exn _,
                       plain_print_formatted args chat item print_exn) s0)
          as (evs & F & E);
        destruct (for_each cb st s0) as [s1 [[]|e]]
    end; simpl in E; subst s1; simpl;
      destruct (count_plain evs F) as (C1 & C2 & C3).
    + eexists (_ :: _ :: evs ++ [_]).
      repeat rewrite <- app_assoc. simpl.
      rewrite !count_app, C1, C2, C3. simpl.
      repeat (split; [done|]). by right.
    + eexists (_ :: _ :: evs).
      repeat rewrite <- app_assoc. simpl. rewrite C1, C2, C3.
      repeat (split; [done|]). by right.
Qed.

(** [dispatch] from the outcome of its [try] block. *)
Lemma dispatch_run args w :
  run_dispatch args w =
  let '(s1, r1) := try_body args w initial_state in
  let '(s2, r2) := match r1 return state Message * outcome unit with
                   | Ok _ => (s1, Ok tt)
                   | Raise e => except_clauses e s1
                   end in
  (trace s2 ++ cleanup args (output_file s2), r2).
Proof.
  unfold run_dispatch, dispatch, bind, set_output_file, try_except_finally.
  simpl. change {| trace := []; output_file := None |} with (@initial_state Message).
  destruct (try_body args w initial_state) as [s1 [[]|e]].
  - by rewrite finally_clause_run.
  - destruct (except_clauses e s1) as [s2 r2].
    rewrite finally_clause_run. by destruct r2.
Qed.

Lemma dispatch_shape args w :
  ∃ body : list (event Message),
    count is_close_downloader body = 0
    ∧ count is_close_writer body = 0
    ∧ (((run_dispatch args w).1 = body ++ [CloseDownloader]
        ∧ count is_open_writer body = 0)
       ∨ ((run_dispatch args w).1 = body ++ [CloseDownloader; CloseWriter]
          ∧ count is_open_writer body = 1)).
Proof.
  rewrite dispatch_run.
  destruct (try_body_shape args w initial_state eq_refl)
    as (evs & Htr & C1 & C2 & Hout).
  destruct (try_body args w initial_state) as [s1 r1]. simpl in Htr, Hout.
  assert (∃ hevs, Forall (λ ev, is_plain ev = true) hevs
            ∧ (match r1 with
               | Ok _ => (s1, Ok tt)
               | Raise e => except_clauses e s1
               end).1 = extend s1 hevs) as (hevs & F & E).
  { destruct r1 as [[]|e]; [|apply plain_except_clauses].
    exists []. split; [constructor|]. simpl. by rewrite extend_nil. }
  destruct (match r1 with
            | Ok _ => (s1, Ok tt)
            | Raise e => except_clauses e s1
            end) as [s2 r2].
  simpl in E. subst s2. simpl. rewrite Htr.
  destruct (count_plain hevs F) as (D1 & D2 & D3).
  exists (evs ++ hevs). rewrite !count_app, C1, C2, D1, D2, D3.
  split; [done|]. split; [done|]. unfold cleanup.
  destruct Hout as [(Ho & Ht & C3)|(Ho & C3)]; rewrite Ho, C3.
  - right. rewrite Ht. done.
  - left. rewrite andb_false_r. done.
Qed.

(** C7: whatever the collaborators do (the chat is exhausted, a
    classified or an unclassified exception is raised, the user
    interrupts), the calls of [dispatch] end with the cleanup and
    hold it once: the downloader is closed exactly once, as the last
    call but for the closing of the writer, and the writer is closed
    once if it was opened and not at all otherwise. *)
Theorem cleanup_runs_exactly_once args w :
  count is_close_downloader (run_dispatch args w).1 = 1
  ∧ count is_close_writer (run_dispatch args w).1
    = count is_open_writer (run_dispatch args w).1
  ∧ ∃ body : list (event Message),
      count is_close_downloader body = 0
      ∧ count is_close_writer body = 0
      ∧ (((run_dispatch args w).1 = body ++ [CloseDownloader]
          ∧ count is_open_writer body = 0)
         ∨ ((run_dispatch args w).1 = body ++ [CloseDownloader; CloseWriter]
            ∧ count is_open_writer body = 1)).
Proof.
  destruct (dispatch_shape args w) as (body & C1 & C2 & Hshape).
  assert (count is_close_downloader (run_dispatch args w).1 = 1
          ∧ count is_close_writer (run_dispatch args w).1
            = count is_open_writer (run_dispatch args w).1) as [H1 H2].
  { destruct Hshape as [[-> C3]|[-> C3]];
      rewrite !count_app, C1, C2, C3; simpl; done. }
  split; [done|]. split; [done|]. by exists body.
Qed.

(** C8: an exception [e] raised in the [try] block, after the calls
    [trace s], is handled by its kind: the nine acquisition failures
    and the other request failures are logged as errors, with the
    message of the exception; no continuation and timeout as info; a
    connection failure as an error with the connectivity message; an
    interruption of the user as the error [Keyboard Interrupt]. In
    these cases [dispatch] cleans up and returns. An exception of any
    other kind is logged nowhere and, after the cleanup, raised again
    by [dispatch]. *)
Theorem error_classifier args w s e :
  try_body args w initial_state = (s, Raise e) →
  match kind e with
  | URLNotProvided | SiteNotSupported | LoginRequired | VideoUnavailable
  | NoChatReplay | VideoUnplayable | InvalidParameter | InvalidURL
  | RetriesExceeded | RequestException =>
      run_dispatch args w
      = (trace s ++ Log "error" (message e) :: cleanup args (output_file s),
         Ok tt)
  | NoContinuation | TimeoutException =>
      run_dispatch args w
      = (trace s ++ Log "info" (message e) :: cleanup args (output_file s),
         Ok tt)
  | ConnectionError =>
      run_dispatch args w
      = (trace s
         ++ Log "error"
              ("Unable to establish a connection. Please check your internet connection. "
               ++ message e)%string
         :: cleanup args (output_file s),
         Ok tt)
  | KeyboardInterrupt =>
      run_dispatch args w
      = (trace s ++ Log "error" "Keyboard Interrupt"
           :: cleanup args (output_file s),
         Ok tt)
  | IndexError | KeyError | TypeError | OtherException _ =>
      run_dispatch args w
      = (trace s ++ cleanup args (output_file s), Raise e)
  end.
Proof.
  intros Hbody. rewrite dispatch_run, Hbody.
  unfold except_clauses, log, emit, raise.
  destruct (kind e); simpl; by rewrite <- ?app_assoc.
Qed.

(** *** The loop *)

Lemma chosen_callback_run args chat item s :
  chosen_callback args chat item None None s
  = (extend s (item_events args chat item), Ok tt).
Proof.
  unfold chosen_callback, item_events, write_to_file, print_formatted.
  unfold bind, raise_if, ret, emit, extend.
  destruct (truthy (output args)), (quiet args); simpl;
    rewrite <- ?app_assoc, ?app_nil_r; try done.
  by destruct s.
Qed.

Lemma for_each_yields args chat items tail :
  ∀ s,
    for_each (chosen_callback args chat) (yields items tail) s
    = for_each (chosen_callback args chat) tail
        (extend s (flat_map (item_events args chat) items)).
Proof.
  induction items as [|item items IH]; intros s; simpl.
  - by rewrite extend_nil.
  - unfold bind at 1. rewrite chosen_callback_run, IH.
    by rewrite extend_extend.
Qed.

(** The [try] block once the chat is there and the writer, if asked
    for, is open. *)
Lemma try_body_run args w chat s :
  get_chat_result w = Ok chat →
  writer_exn w = None →
  try_body args w s
  = bind (for_each (chosen_callback args chat) (messages chat))
         (λ _, emit (finished chat))
         {| trace := trace s ++ loop_prelude args chat;
            output_file := if truthy (output args) then Some tt
                           else output_file s |}.
Proof.
  intros Hchat Hwriter.
  unfold try_body, chosen_callback, loop_prelude, finished.
  unfold bind, lift, log, emit, raise_if, raise, ret, set_output_file.
  rewrite Hchat. simpl.
  destruct (truthy (output args)); rewrite ?Hwriter; simpl;
    by rewrite <- !app_assoc.
Qed.

(** C9: when the chat yields [items], in this order, and goes on in
    any way, the calls of [dispatch] are those before the loop, then
    for each item in this order its console write unless [quiet] is
    set followed by its flushed write to the output file if one was
    asked for, then whatever the rest of the run does. The calls of an
    item are all made before the first call of the next one, and
    [quiet] leaves the write to the file in place. When the chat ends
    after these items, the rest is the final log call and the
    cleanup. *)
Theorem messages_dispatched_in_order args w chat items tail :
  get_chat_result w = Ok chat →
  writer_exn w = None →
  messages chat = yields items tail →
  ∃ rest,
    (run_dispatch args w).1
    = loop_prelude args chat
      ++ flat_map (item_events args chat) items
      ++ rest
    ∧ (tail = StopIteration →
       rest = finished chat :: CloseDownloader
              :: (if truthy (output args) then [CloseWriter] else [])
       ∧ (run_dispatch args w).2 = Ok tt).
Proof.
  intros Hchat Hwriter Hitems.
  remember (run_dispatch args w) as res eqn:Hres.
  rewrite dispatch_run, (try_body_run args w chat) in Hres by done.
  rewrite Hitems in Hres. unfold bind at 1 in Hres.
  rewrite for_each_yields in Hres.
  unfold extend, initial_state in Hres. simpl in Hres.
  destruct tail as [|e|item print_exn write_exn tail'].
  - simpl in Hres. subst res. simpl. eexists.
    split; [rewrite <- !app_assoc; reflexivity|].
    intros _. unfold cleanup. simpl.
    by destruct (truthy (output args)).
  - simpl in Hres.
    destruct (plain_except_clauses e
      {| trace := loop_prelude args chat
                  ++ flat_map (item_events args chat) items;
         output_file := if truthy (output args) then Some tt else None |})
      as (hevs & _ & E).
    destruct (except_clauses e _) as [s2 r2]. simpl in E. subst s2 res.
    simpl. eexists. split; [rewrite <- !app_assoc; reflexivity|]. done.
  - match type of Hres with
    | context [for_each ?cb ?st ?s0] =>
        destruct (plain_for_each cb st
                    (plain_chosen_callback args chat) s0) as (evs & _ & E);
        destruct (for_each cb st s0) as [s1 [[]|e]]
    end; simpl in E; subst s1; simpl in Hres.
    + subst res. simpl. eexists.
      split; [rewrite <- !app_assoc; reflexivity|]. done.
    + match type of Hres with
      | context [except_clauses e ?s0] =>
          destruct (plain_except_clauses e s0) as (hevs & _ & E);
          destruct (except_clauses e s0) as [s2 r2]
      end; simpl in E; subst s2 res; simpl.
      eexists. split; [rewrite <- !app_assoc; reflexivity|]. done.
Qed.

End DispatchProperties.

Lemma error_classifier_witness :
  run_dispatch example_args failing_collaborators
  = ([Log "error" "Login is required to view this chat"; CloseDownloader],
     Ok tt).
Proof.
  apply (error_classifier example_args failing_collaborators
           initial_state login_required).
  reflexivity.
Defined.

Lemma messages_dispatched_in_order_witness :
  ∃ rest,
    (run_dispatch example_args example_collaborators).1
    = (loop_prelude example_args example_chat
       ++ [Write "a" true; Write "b" true; Write "c" true] ++ rest)%list.
Proof.
  destruct (messages_dispatched_in_order example_args example_collaborators
              example_chat ["a"; "b"; "c"] StopIteration)
    as (rest & Htrace & _).
  - reflexivity.
  - reflexivity.
  - reflexivity.
  - exists rest. exact Htrace.
Defined.

(** C1 on the code: [--sort_keys] is registered with the action
    [store_false], so [args.sort_keys] is false when the flag is on the
    command line and true when it is not, and this is the value the
    writer of the output file is opened with. *)
Theorem sort_keys_flag_disables_sorting :
  parsed_sort_keys true = PBool false
  ∧ parsed_sort_keys false = PBool true
  ∧ OpenWriter (PStr "chat.json") (PInt 4) (PBool false) (PBool false)
    ∈ (run_dispatch (output_args (parsed_sort_keys true))
         example_collaborators).1
  ∧ OpenWriter (PStr "chat.json") (PInt 4) (PBool true) (PBool false)
    ∈ (run_dispatch (output_args (parsed_sort_keys false))
         example_collaborators).1.
Proof.
  split; [reflexivity|]. split; [reflexivity|].
  split; vm_compute; do 2 apply list_elem_of_further; apply list_elem_of_here.
Qed.

(** * Further properties of the command line interface *)

(** ** The [splitter] coercion *)

Module SplitterFacts.
Import Splitter.
Local Open Scope list_scope.

Lemma re_split_from_nonsep b c s :
  is_separator c = false →
  re_split_from b (c :: s)
  = match re_split_from false s with
    | piece :: others => (c :: piece) :: others
    | [] => [[c]]
    end.
Proof. intros Hc. simpl. by rewrite Hc. Qed.

Lemma re_split_from_sep b c s :
  is_separator c = true →
  re_split_from b (c :: s)
  = if b then re_split_from true s else [] :: re_split_from true s.
Proof. intros Hc. simpl. by rewrite Hc. Qed.

Lemma re_split_from_not_nil b s : re_split_from b s ≠ [].
Proof.
  revert b. induction s as [|c s IH]; intros b; [done|].
  destruct (is_separator c) eqn:Hc.
  - rewrite re_split_from_sep by done. destruct b; [apply IH|done].
  - rewrite re_split_from_nonsep by done.
    by destruct (re_split_from false s).
Qed.

Lemma re_split_from_clean s : ∀ b, Forall clean (re_split_from b s).
Proof.
  induction s as [|c s IH]; intros b.
  - repeat constructor.
  - destruct (is_separator c) eqn:Hc.
    + rewrite re_split_from_sep by done.
      destruct b; [apply IH|]. constructor; [constructor|apply IH].
    + rewrite re_split_from_nonsep by done.
      specialize (IH false). destruct (re_split_from false s) as [|p o].
      * repeat constructor. done.
      * apply Forall_cons in IH. destruct IH as [Hp Ho].
        constructor; [by constructor|done].
Qed.

Lemma clean_not_space c : is_separator c = false → is_space c = false.
Proof.
  unfold is_separator. intros H.
  apply orb_false_iff in H. destruct H as [H _].
  apply orb_false_iff in H. by destruct H.
Qed.

Lemma rstrip_space_clean item : clean item → rstrip_space item = item.
Proof.
  induction 1 as [|c item Hc _ IH]; simpl; [done|].
  rewrite IH. destruct item; [|done]. by rewrite clean_not_space.
Qed.

Lemma strip_clean item : clean item → strip item = item.
Proof.
  intros H. unfold strip.
  assert (lstrip_space item = item) as ->.
  { destruct H as [|c item Hc _]; simpl; [done|]. by rewrite clean_not_space. }
  by apply rstrip_space_clean.
Qed.

(** The call of [strip] changes nothing: the pieces hold no white
    space. *)
Lemma splitter_re_split s : splitter s = re_split s.
Proof.
  unfold splitter, re_split.
  induction (re_split_from_clean s false) as [|p o Hp _ IH]; simpl; [done|].
  by rewrite strip_clean, IH.
Qed.

(** X1: [splitter] returns at least one item, and no item holds a
    white space character, a comma or a semicolon. *)
Theorem splitter_items_clean (s : pystr) :
  splitter s ≠ []
  ∧ ∀ item, item ∈ splitter s → Forall (λ c, is_separator c = false) item.
Proof.
  rewrite splitter_re_split. split; [apply re_split_from_not_nil|].
  intros item Hitem.
  by apply (proj1 (Forall_forall _ _) (re_split_from_clean s false)).
Qed.

Lemma re_split_from_clean_item item :
  clean item → item ≠ [] →
  ∀ b s p o,
    re_split_from false s = p :: o →
    re_split_from b (item ++ s) = (item ++ p) :: o.
Proof.
  induction 1 as [|c item Hc Hitem IH]; intros Hne b s p o Hs; [done|].
  simpl app. rewrite re_split_from_nonsep by done.
  destruct item as [|c' item'].
  - simpl. by rewrite Hs.
  - by rewrite (IH ltac:(done) false s p o Hs).
Qed.

Lemma re_split_from_run sep :
  Forall (λ c, is_separator c = true) sep →
  ∀ s, re_split_from true (sep ++ s) = re_split_from true s.
Proof.
  induction 1 as [|c sep Hc _ IH]; intros s; [done|].
  simpl app. rewrite re_split_from_sep by done. apply IH.
Qed.

(** X2: a string without white space, comma and semicolon is the
    single item of the result; this holds for the empty string, whose
    result is the list of the empty string. *)
Theorem splitter_without_separator (s : pystr) :
  Forall (λ c, is_separator c = false) s → splitter s = [s].
Proof.
  intros Hs. rewrite splitter_re_split. unfold re_split.
  destruct s as [|c s]; [done|].
  rewrite <- (app_nil_r (c :: s)) at 1.
  rewrite (re_split_from_clean_item (c :: s) Hs ltac:(done) false [] [] []);
    [by rewrite app_nil_r|done].
Qed.

Lemma splitter_without_separator_witness :
  splitter (of_string "messages") = [of_string "messages"].
Proof.
  apply (splitter_without_separator (of_string "messages")).
  apply (bool_decide_unpack _). vm_compute. reflexivity.
Defined.

Lemma re_split_from_join sep items :
  sep ≠ [] → Forall (λ c, is_separator c = true) sep →
  Forall (λ item, clean item ∧ item ≠ []) items → items ≠ [] →
  ∀ b, re_split_from b (join sep items) = items.
Proof.
  intros Hne Hsep Hitems. induction Hitems as [|item others [Hc Hi] Ho IH].
  { done. }
  intros _ b. destruct others as [|other others].
  - simpl. rewrite <- (app_nil_r item) at 1.
    rewrite (re_split_from_clean_item item Hc Hi b [] [] []); [|done].
    by rewrite app_nil_r.
  - change (join sep (item :: other :: others))
      with (item ++ sep ++ join sep (other :: others)).
    rewrite (re_split_from_clean_item item Hc Hi b
               (sep ++ join sep (other :: others)) [] (other :: others));
      [by rewrite app_nil_r|].
    destruct sep as [|c sep]; [done|].
    apply Forall_cons in Hsep. destruct Hsep as [Hc' Hsep].
    simpl app. rewrite re_split_from_sep by done.
    rewrite re_split_from_run by done. f_equal. by apply IH.
Qed.

(** X3: round trip. Items that are not empty and hold no separator,
    joined by a run of separators that is not empty (a comma, a comma
    and a space, ...), are split into these same items. *)
Theorem splitter_join (sep : pystr) (items : list pystr) :
  sep ≠ [] → Forall (λ c, is_separator c = true) sep →
  items ≠ [] →
  Forall (λ item, Forall (λ c, is_separator c = false) item ∧ item ≠ []) items →
  splitter (join sep items) = items.
Proof.
  intros Hne Hsep Hitems Hclean. rewrite splitter_re_split.
  by apply re_split_from_join.
Qed.

Lemma splitter_join_witness :
  splitter (join (of_string ", ") [of_string "messages"; of_string "superchat"])
  = [of_string "messages"; of_string "superchat"].
Proof.
  apply (splitter_join (of_string ", ")
           [of_string "messages"; of_string "superchat"]).
  - discriminate.
  - apply (bool_decide_unpack _). vm_compute. reflexivity.
  - discriminate.
  - repeat constructor; try discriminate;
      apply (bool_decide_unpack _); vm_compute; reflexivity.
Defined.

Lemma concat_re_split_from s :
  ∀ b, concat (re_split_from b s) = filter (λ c, is_separator c = false) s.
Proof.
  induction s as [|c s IH]; intros b; [done|].
  destruct (is_separator c) eqn:Hc.
  - rewrite re_split_from_sep by done.
    rewrite filter_cons_False by (by rewrite Hc).
    destruct b; simpl; apply IH.
  - rewrite re_split_from_nonsep by done.
    rewrite filter_cons_True by done. rewrite <- (IH false).
    pose proof (re_split_from_not_nil false s).
    by destruct (re_split_from false s).
Qed.

(** X4: nothing but separators is lost: the items, one after the
    other, are the string without its white space, commas and
    semicolons. *)
Theorem splitter_concat (s : pystr) :
  concat (splitter s) = filter (λ c, is_separator c = false) s.
Proof. rewrite splitter_re_split. apply concat_re_split_from. Qed.

Lemma re_split_from_inner s :
  all_but_last_nonempty (re_split_from true s)
  ∧ all_but_last_nonempty (tail (re_split_from false s)).
Proof.
  induction s as [|c s [IHt IHf]]; [done|].
  destruct (is_separator c) eqn:Hc.
  - rewrite !re_split_from_sep by done. done.
  - rewrite !re_split_from_nonsep by done.
    destruct (re_split_from false s) as [|p o]; [done|].
    simpl in IHf. simpl. split; [|done]. by destruct o.
Qed.

Lemma all_but_last_nonempty_inner pieces :
  all_but_last_nonempty pieces →
  ∀ pre item post,
    pieces = pre ++ item :: post → post ≠ [] → item ≠ [].
Proof.
  induction pieces as [|p o IH]; intros Hall pre item post Heq Hpost.
  { by destruct pre. }
  destruct pre as [|p' pre]; simpl in Heq; injection Heq as -> ->.
  - simpl in Hall. destruct post; [done|]. by destruct Hall.
  - apply (IH ltac:(simpl in Hall; destruct (pre ++ item :: post) eqn:E;
                    [by destruct pre|by destruct Hall]) pre item post);
      done.
Qed.

(** X5: an empty item is the first or the last one: it stands for a
    separator at the start or at the end of the string. Between two
    items, an item is never empty, however long the run of separators
    is. *)
Theorem splitter_inner_items_nonempty (s : pystr) pre item post :
  splitter s = pre ++ item :: post →
  pre ≠ [] → post ≠ [] → item ≠ [].
Proof.
  rewrite splitter_re_split. unfold re_split. intros Heq Hpre Hpost.
  destruct (re_split_from_inner s) as [_ Hall].
  destruct pre as [|p pre]; [done|]. rewrite Heq in Hall. simpl in Hall.
  by apply (all_but_last_nonempty_inner _ Hall pre item post).
Qed.

Lemma splitter_inner_items_nonempty_witness : of_string "b" ≠ [].
Proof.
  apply (splitter_inner_items_nonempty (of_string "a,, ;b,c")
           [of_string "a"] (of_string "b") [of_string "c"]).
  - vm_compute. reflexivity.
  - discriminate.
  - discriminate.
Defined.

(** X6: the first item is empty exactly when the string is empty or
    starts with a separator. *)
Theorem splitter_first_item (s : pystr) :
  head (splitter s) = Some []
  ↔ s = [] ∨ ∃ c rest, s = c :: rest ∧ is_separator c = true.
Proof.
  rewrite splitter_re_split. unfold re_split. destruct s as [|c s].
  - split; [by left|done].
  - destruct (is_separator c) eqn:Hc.
    + rewrite re_split_from_sep by done. split; [|done].
      intros _. right. by exists c, s.
    + rewrite re_split_from_nonsep by done. split.
      * by destruct (re_split_from false s).
      * intros [?|(c' & rest & [= -> ->] & Hc')]; [done|congruence].
Qed.

End SplitterFacts.

(** ** Parameter introspector and flag synthesizer *)

(** X7: when the documentation names a parameter more than once, the
    entry of [get_info] is that of the last documentation entry of this
    name. *)
Theorem get_info_last_entry_wins (f : function) before p after :
  doc_params f = (before ++ p :: after)%list →
  arg_name p ∉ arg_name <$> after →
  get_info f !! arg_name p
  = Some {| help := description p;
            default_value := dict_get (get_default_args f) (arg_name p) |}.
Proof.
  intros Hdoc Hlast. unfold get_info. rewrite Hdoc, foldl_app. simpl.
  rewrite foldl_info_other by done.
  rewrite get_info_step_unfold. apply lookup_insert_eq.
Qed.

Lemma get_info_last_entry_wins_witness :
  get_info {| parameters := [("timeout", Some (PInt 5))];
              doc_params := [DocParam "timeout" "first"; DocParam "timeout" "second"] |}
    !! "timeout"
  = Some {| help := "second"; default_value := PInt 5 |}.
Proof.
  apply (get_info_last_entry_wins
           {| parameters := [("timeout", Some (PInt 5))];
              doc_params := [DocParam "timeout" "first"; DocParam "timeout" "second"] |}
           [DocParam "timeout" "first"] (DocParam "timeout" "second") []).
  - reflexivity.
  - apply (bool_decide_unpack _). vm_compute. reflexivity.
Defined.

(** The entries of [get_info] are those of the documented names. *)
Lemma get_info_lookup_None (f : function) name :
  get_info f !! name = None ↔ name ∉ arg_name <$> doc_params f.
Proof.
  unfold get_info. split.
  - intros Hnone Hin.
    destruct (foldl_info_documented (get_default_args f) (doc_params f) ∅
                name Hin) as (q & _ & _ & Hq).
    congruence.
  - intros Hnot. rewrite foldl_info_other by done. apply lookup_empty.
Qed.

(** X8: a parameter without documentation entry cannot be given a
    flag, even when the signature declares it with a default: on the
    namespace [get_info] builds, [add_chat_param] raises [KeyError] with
    the name (the first spelling without its leading dashes), whatever
    the keywords are, and registers nothing. *)
Theorem add_chat_param_undocumented (f : function) ii group key0 keys kw :
  lstrip "-"%char key0 ∉ arg_name <$> doc_params f →
  add_chat_param (get_info f) ii group (key0 :: keys) kw
  = Raise (Exception KeyError (lstrip "-"%char key0)).
Proof.
  intros Hdoc. apply get_info_lookup_None in Hdoc.
  unfold add_chat_param, add_param. simpl. by rewrite Hdoc.
Qed.

Lemma add_chat_param_undocumented_witness :
  add_chat_param (get_info example_function) ∅ [] ["--max_messages"]
    (with_type py_int)
  = Raise (Exception KeyError "max_messages").
Proof.
  apply (add_chat_param_undocumented example_function ∅ [] "--max_messages"
           [] (with_type py_int)).
  apply (bool_decide_unpack _). vm_compute. reflexivity.
Defined.

(** X9: a [default] keyword outside boolean-flag mode, or a [help]
    keyword in any mode, clashes with the introspected entry: for a
    known name, [add_param] raises [TypeError] and registers nothing. *)
Theorem add_param_duplicate_keyword ci ii param_type group key0 keys kw entry :
  (if String.eqb param_type "chat" then ci else ii) !! lstrip "-"%char key0
    = Some entry →
  is_Some (kw_help kw)
  ∨ (is_Some (kw_default kw)
     ∧ truthy (default PNone (kw_is_boolean_flag kw)) = false) →
  ∃ e, add_param ci ii param_type group (key0 :: keys) kw = Raise e
       ∧ kind e = TypeError.
Proof.
  intros Hentry Hdup. unfold add_param, pop_boolean_flag, merge_keywords.
  rewrite Hentry.
  destruct Hdup as [[h Hh]|[[d Hd] Hflag]].
  - rewrite Hh.
    destruct (truthy (default PNone (kw_is_boolean_flag kw))); simpl;
      eexists; split; reflexivity.
  - rewrite Hflag, Hd. simpl. destruct (kw_help kw); eexists; split; reflexivity.
Qed.

Lemma add_param_duplicate_keyword_witness :
  ∃ e, add_param example_chat_info ∅ "chat" [] ["--exit_on_debug"]
         {| kw_is_boolean_flag := None; kw_default := Some (PBool false);
            kw_help := None; kw_action := None; kw_type := None;
            kw_choices := None |} = Raise e
       ∧ kind e = TypeError.
Proof.
  apply (add_param_duplicate_keyword example_chat_info ∅ "chat" []
           "--exit_on_debug" [] _
           {| help := "Exit when something unexpected happens";
              default_value := PNone |}).
  - vm_compute. reflexivity.
  - right. split; [by eexists|reflexivity].
Defined.

(** X10: whenever [add_param] succeeds, it appends exactly one flag to
    the group and leaves the earlier ones in place; the flag has the
    spellings of the call, the help and the default of the introspected
    entry (never a default of the caller), and the [type] and [choices]
    of the call. *)
Theorem add_param_registers_introspected ci ii param_type group keys kw group' :
  add_param ci ii param_type group keys kw = Ok group' →
  ∃ key0 rest entry fd,
    keys = key0 :: rest
    ∧ (if String.eqb param_type "chat" then ci else ii) !! lstrip "-"%char key0
      = Some entry
    ∧ group' = (group ++ [fd])%list
    ∧ fd_keys fd = keys
    ∧ fd_help fd = Some (help entry)
    ∧ fd_default fd = Some (default_value entry)
    ∧ fd_type fd = kw_type kw
    ∧ fd_choices fd = kw_choices kw.
Proof.
  unfold add_param. destruct keys as [|key0 rest]; [done|].
  destruct ((if String.eqb param_type "chat" then ci else ii)
              !! lstrip "-"%char key0) as [entry|] eqn:Hentry; [|done].
  destruct (merge_keywords entry (pop_boolean_flag kw)) as [merged|e] eqn:Hm;
    [|done].
  intros [= <-]. exists key0, rest, entry. eexists.
  split; [done|]. split; [done|]. split; [reflexivity|]. simpl.
  unfold merge_keywords in Hm.
  destruct (kw_help (pop_boolean_flag kw)) eqn:Hh; [done|].
  destruct (kw_default (pop_boolean_flag kw)) eqn:Hd; [done|].
  injection Hm as <-. simpl. unfold pop_boolean_flag.
  by destruct (truthy (default PNone (kw_is_boolean_flag kw))).
Qed.

Lemma add_param_registers_introspected_witness :
  ∃ key0 rest entry fd,
    ["--pause_on_debug"] = key0 :: rest
    ∧ (if String.eqb "chat" "chat" then example_chat_info else ∅)
        !! lstrip "-"%char key0 = Some entry
    ∧ [ {| fd_keys := ["--pause_on_debug"];
           fd_help := Some "Pause on certain debug messages";
           fd_default := Some (PBool true);
           fd_action := Some "store_true";
           fd_type := None; fd_choices := None |} ] = ([] ++ [fd])%list
    ∧ fd_keys fd = ["--pause_on_debug"]
    ∧ fd_help fd = Some (help entry)
    ∧ fd_default fd = Some (default_value entry)
    ∧ fd_type fd = kw_type boolean_flag_kwargs
    ∧ fd_choices fd = kw_choices boolean_flag_kwargs.
Proof.
  apply (add_param_registers_introspected example_chat_info ∅ "chat" []
           ["--pause_on_debug"] boolean_flag_kwargs).
  vm_compute. reflexivity.
Defined.

(** X11: [chat_params] and [init_params] hold exactly the documented
    names of the function they are built for: a documented name is
    forwarded with the attribute of the namespace, or with [None] when
    the namespace has no such attribute; a parameter of the signature
    without documentation entry is not forwarded. *)
Theorem forwarded_params_documented (f : function) attrs name :
  forwarded_params (get_info f) attrs !! name
  = if bool_decide (name ∈ arg_name <$> doc_params f)
    then Some (default PNone (attrs !! name))
    else None.
Proof.
  unfold forwarded_params. rewrite map_lookup_imap.
  case_bool_decide as Hdoc.
  - destruct (get_info f !! name) as [e|] eqn:He; [done|].
    by apply get_info_lookup_None in He.
  - apply get_info_lookup_None in Hdoc. by rewrite Hdoc.
Qed.

(** ** The argument groups of [main] *)

Ltac case_lookup info name :=
  destruct (info !! name) as [?|] eqn:?; simpl; [|reflexivity].

(** X12: building the argument groups succeeds exactly when both
    namespaces have an entry for every name [main] registers from them;
    otherwise it raises [KeyError] with the first name without entry, in
    the order of registration, the names of the chat namespace coming
    before those of the init namespace. *)
Theorem build_groups_outcome (ci ii : gmap string info_entry) :
  match first_missing ci chat_flag_names with
  | Some name => build_groups ci ii = Raise (Exception KeyError name)
  | None =>
      match first_missing ii init_flag_names with
      | Some name => build_groups ci ii = Raise (Exception KeyError name)
      | None => ∃ groups, build_groups ci ii = Ok groups
      end
  end.
Proof.
  unfold build_groups, add_chat_param, add_init_param, add_param,
    first_missing, is_missing.
  simpl.
  case_lookup ci "start_time". case_lookup ci "end_time".
  case_lookup ci "message_types". case_lookup ci "message_groups".
  case_lookup ci "max_attempts". case_lookup ci "retry_timeout".
  case_lookup ci "max_messages". case_lookup ci "inactivity_timeout".
  case_lookup ci "timeout". case_lookup ci "format".
  case_lookup ci "format_file". case_lookup ci "chat_type".
  case_lookup ci "message_receive_timeout". case_lookup ci "buffer_size".
  case_lookup ci "pause_on_debug". case_lookup ci "exit_on_debug".
  case_lookup ci "logging".
  case_lookup ii "cookies". case_lookup ii "proxy".
  eexists. reflexivity.
Qed.

(** X13: in the groups [main] builds, every flag that comes from a
    namespace has the default and the help of its introspected entry,
    and the output group holds [--sort_keys] as registered. *)
Theorem build_groups_defaults (ci ii : gmap string info_entry) groups :
  build_groups ci ii = Ok groups →
  Forall (from_info ci ii) (all_flags groups)
  ∧ sort_keys_argument ∈ output_group groups.
Proof.
  unfold build_groups, add_chat_param, add_init_param, add_param.
  simpl.
  destruct (ci !! "start_time") as [?|] eqn:?; simpl; [|done].
  destruct (ci !! "end_time") as [?|] eqn:?; simpl; [|done].
  destruct (ci !! "message_types") as [?|] eqn:?; simpl; [|done].
  destruct (ci !! "message_groups") as [?|] eqn:?; simpl; [|done].
  destruct (ci !! "max_attempts") as [?|] eqn:?; simpl; [|done].
  destruct (ci !! "retry_timeout") as [?|] eqn:?; simpl; [|done].
  destruct (ci !! "max_messages") as [?|] eqn:?; simpl; [|done].
  destruct (ci !! "inactivity_timeout") as [?|] eqn:?; simpl; [|done].
  destruct (ci !! "timeout") as [?|] eqn:?; simpl; [|done].
  destruct (ci !! "format") as [?|] eqn:?; simpl; [|done].
  destruct (ci !! "format_file") as [?|] eqn:?; simpl; [|done].
  destruct (ci !! "chat_type") as [?|] eqn:?; simpl; [|done].
  destruct (ci !! "message_receive_timeout") as [?|] eqn:?; simpl; [|done].
  destruct (ci !! "buffer_size") as [?|] eqn:?; simpl; [|done].
  destruct (ci !! "pause_on_debug") as [?|] eqn:?; simpl; [|done].
  destruct (ci !! "exit_on_debug") as [?|] eqn:?; simpl; [|done].
  destruct (ci !! "logging") as [?|] eqn:?; simpl; [|done].
  destruct (ii !! "cookies") as [?|] eqn:?; simpl; [|done].
  destruct (ii !! "proxy") as [?|] eqn:?; simpl; [|done].
  intros [= <-]. split.
  - unfold all_flags. simpl.
    repeat (apply Forall_cons_2;
            [unfold from_info; simpl;
             repeat match goal with
                    | H : _ !! _ = Some _ |- _ => rewrite H
                    end;
             done|]).
    apply Forall_nil_2.
  - unfold sort_keys_argument. simpl. set_solver.
Qed.

Lemma build_groups_defaults_witness :
  ∃ groups,
    build_groups full_chat_info full_init_info = Ok groups
    ∧ Forall (from_info full_chat_info full_init_info) (all_flags groups)
    ∧ sort_keys_argument ∈ output_group groups.
Proof.
  eexists. split; [vm_compute; reflexivity|].
  apply (build_groups_defaults full_chat_info full_init_info).
  vm_compute. reflexivity.
Defined.

(** ** Mode resolver *)

(** X14: the resolver never enables a logger that is disabled, and it
    changes nothing of the namespace but [logging] and
    [pause_on_debug]. *)
Theorem resolve_mode_keeps (args : Namespace) (logger : Logger) :
  (disabled logger = true → disabled (resolve_mode (args, logger)).2 = true)
  ∧ testing (resolve_mode (args, logger)).1 = testing args
  ∧ verbose (resolve_mode (args, logger)).1 = verbose args
  ∧ quiet (resolve_mode (args, logger)).1 = quiet args
  ∧ exit_on_debug (resolve_mode (args, logger)).1 = exit_on_debug args
  ∧ output (resolve_mode (args, logger)).1 = output args
  ∧ sort_keys (resolve_mode (args, logger)).1 = sort_keys args
  ∧ indent (resolve_mode (args, logger)).1 = indent args
  ∧ overwrite (resolve_mode (args, logger)).1 = overwrite args.
Proof.
  destruct args as [t v q l p e o sk i ow], logger as [d lv].
  unfold resolve_mode. simpl.
  split; [|by destruct t, v].
  intros ->. destruct t, v, q; simpl; try done;
    by destruct (bool_decide _).
Qed.

Lemma resolve_mode_keeps_witness :
  disabled (resolve_mode (output_args (PBool true),
                          {| disabled := true; level := PNone |})).2 = true.
Proof.
  destruct (resolve_mode_keeps (output_args (PBool true))
              {| disabled := true; level := PNone |}) as [H _].
  exact (H eq_refl).
Defined.

(** ** Retrieval dispatcher *)

Section DispatchCalls.
Context {Message : Type}.
Local Open Scope list_scope.
Implicit Types (s : state Message) (evs : list (event Message)).
Implicit Types (args : Namespace) (chat : Chat Message).
Implicit Types (P : event Message → bool) (w : Collaborators Message).

Lemma emits_ret {A} P (a : A) : emits P (ret a).
Proof. intros s. exists []. split; [constructor|]. simpl. by rewrite app_nil_r. Qed.

Lemma emits_raise {A} P e : emits (A := A) P (raise e).
Proof. intros s. exists []. split; [constructor|]. simpl. by rewrite app_nil_r. Qed.

Lemma emits_emit P (ev : event Message) : P ev = true → emits P (emit ev).
Proof. intros Hev s. exists [ev]. split; [by repeat constructor|done]. Qed.

Lemma emits_bind {A B} P (m : M (Message := Message) A) (k : A → M B) :
  emits P m → (∀ a, emits P (k a)) → emits P (bind m k).
Proof.
  intros Hm Hk s. destruct (Hm s) as (evs1 & F1 & E1). unfold bind.
  destruct (m s) as [s1 [a|e]]; simpl in E1.
  - destruct (Hk a s1) as (evs2 & F2 & E2).
    exists (evs1 ++ evs2). split; [by apply Forall_app|].
    by rewrite E2, E1, app_assoc.
  - by exists evs1.
Qed.

Lemma emits_raise_if P e : emits (Message := Message) P (raise_if e).
Proof. destruct e; [apply emits_raise|apply emits_ret]. Qed.

Lemma emits_for_each P callback (st : stream Message) :
  (∀ item print_exn write_exn, emits P (callback item print_exn write_exn)) →
  emits P (for_each callback st).
Proof.
  intros Hcb. induction st as [|e|item print_exn write_exn rest IH]; simpl.
  - apply emits_ret.
  - apply emits_raise.
  - apply emits_bind; [apply Hcb|]. intros _. apply IH.
Qed.

Lemma allowed_print_formatted args chat item print_exn :
  emits (allowed args) (print_formatted args chat item print_exn).
Proof.
  unfold print_formatted. destruct (quiet args) eqn:Hq; simpl;
    [apply emits_ret|].
  apply emits_bind; [apply emits_raise_if|]. intros _.
  apply emits_emit. simpl. by rewrite Hq.
Qed.

Lemma allowed_write_to_file args chat item print_exn write_exn :
  truthy (output args) = true →
  emits (allowed args) (write_to_file args chat item print_exn write_exn).
Proof.
  intros Hout. unfold write_to_file.
  apply emits_bind; [apply allowed_print_formatted|]. intros _.
  apply emits_bind; [apply emits_raise_if|]. intros _.
  apply emits_emit. simpl. by rewrite Hout.
Qed.

(** The handler makes at most one call, a log call. *)
Lemma except_clauses_logs e s :
  ∃ logs, (except_clauses e s).1 = extend s logs
          ∧ Forall (λ ev, is_log ev = true) logs ∧ (List.length logs ≤ 1)%nat.
Proof.
  unfold except_clauses, log, emit, raise.
  destruct (kind e); simpl;
    first [ by eexists [_]; repeat split; [repeat constructor|simpl; lia]
          | exists []; rewrite extend_nil; repeat split;
            [constructor|simpl; lia] ].
Qed.

Lemma allowed_except_clauses args e :
  emits (Message := Message) (allowed args) (except_clauses e).
Proof.
  intros s. destruct (except_clauses_logs e s) as (logs & E & F & _).
  exists logs. split; [|by rewrite E].
  eapply Forall_impl; [exact F|]. by intros [].
Qed.

Lemma allowed_try_body args w : emits (allowed args) (try_body args w).
Proof.
  intros s. unfold try_body.
  unfold bind, lift, log, emit, raise_if, raise, ret, set_output_file.
  destruct (get_chat_result w) as [chat|e]; simpl.
  2: { exists []. split; [constructor|by rewrite app_nil_r]. }
  destruct (truthy (output args)) eqn:Hout; simpl.
  - destruct (writer_exn w) as [e|]; simpl.
    { eexists [_; _]. split; cycle 1.
      { by rewrite <- app_assoc. }
      by repeat constructor. }
    match goal with
    | |- context [for_each ?cb ?st ?s0] =>
        destruct (emits_for_each (allowed args) cb st
                    (λ item p q, allowed_write_to_file args chat item p q Hout)
                    s0) as (evs & F & E);
        destruct (for_each cb st s0) as [s1 [[]|e]]
    end; simpl in E; simpl; rewrite E.
    + eexists (_ :: _ :: _ :: evs ++ [_]). split; cycle 1.
      { repeat rewrite <- app_assoc. reflexivity. }
      apply Forall_cons_2; [done|]. apply Forall_cons_2; [done|].
      apply Forall_cons_2.
      { simpl. rewrite Hout. simpl. by apply bool_decide_eq_true_2. }
      apply Forall_app. split; [done|by repeat constructor].
    + eexists (_ :: _ :: _ :: evs). split; cycle 1.
      { repeat rewrite <- app_assoc. reflexivity. }
      apply Forall_cons_2; [done|]. apply Forall_cons_2; [done|].
      apply Forall_cons_2; [|done].
      simpl. rewrite Hout. simpl. by apply bool_decide_eq_true_2.
  - match goal with
    | |- context [for_each ?cb ?st ?s0] =>
        destruct (emits_for_each (allowed args) cb st
                    (λ item p _, allowed_print_formatted args chat item p)
                    s0) as (evs & F & E);
        destruct (for_each cb st s0) as [s1 [[]|e]]
    end; simpl in E; simpl; rewrite E.
    + eexists (_ :: _ :: evs ++ [_]). split; cycle 1.
      { repeat rewrite <- app_assoc. reflexivity. }
      apply Forall_cons_2; [done|]. apply Forall_cons_2; [done|].
      apply Forall_app. split; [done|by repeat constructor].
    + eexists (_ :: _ :: evs). split; cycle 1.
      { repeat rewrite <- app_assoc. reflexivity. }
      apply Forall_cons_2; [done|]. by apply Forall_cons_2.
Qed.

(** Every call of a run is one the namespace allows. *)
Lemma dispatch_allowed args w :
  Forall (λ ev, allowed args ev = true) (run_dispatch args w).1.
Proof.
  rewrite dispatch_run.
  destruct (allowed_try_body args w initial_state) as (evs1 & F1 & E1).
  destruct (try_body args w initial_state) as [s1 r1]. simpl in E1.
  assert (∃ evs2, Forall (λ ev, allowed args ev = true) evs2
            ∧ trace (match r1 return state Message * outcome unit with
                     | Ok _ => (s1, Ok tt)
                     | Raise e => except_clauses e s1
                     end).1 = trace s1 ++ evs2) as (evs2 & F2 & E2).
  { destruct r1 as [[]|e]; [|apply allowed_except_clauses].
    exists []. split; [constructor|]. simpl. by rewrite app_nil_r. }
  destruct (match r1 return state Message * outcome unit with
            | Ok _ => (s1, Ok tt)
            | Raise e => except_clauses e s1
            end) as [s2 r2].
  simpl in E2. simpl. rewrite E2, E1. simpl.
  repeat apply Forall_app_2; try done.
  unfold cleanup. apply Forall_cons_2; [done|].
  destruct (truthy (output args)) eqn:Hout; simpl; [|constructor].
  destruct (bool_decide (is_Some (output_file s2))); [|constructor].
  repeat constructor. simpl. done.
Qed.

(** X15: without an output file (no [--output], or an empty path) no
    run opens, writes or closes a writer, whatever the collaborators
    do. *)
Theorem no_output_no_writer args w ev :
  truthy (output args) = false →
  ev ∈ (run_dispatch args w).1 →
  is_open_writer ev = false ∧ is_write ev = false ∧ is_close_writer ev = false.
Proof.
  intros Hout Hev.
  pose proof (proj1 (Forall_forall _ _) (dispatch_allowed args w) ev Hev) as H.
  destruct ev; simpl in H; rewrite ?Hout in H; done.
Qed.

(** X16: in quiet mode no run writes to the console, whatever the
    collaborators do. *)
Theorem quiet_no_console args w ev :
  quiet args = true →
  ev ∈ (run_dispatch args w).1 →
  is_safe_print ev = false.
Proof.
  intros Hq Hev.
  pose proof (proj1 (Forall_forall _ _) (dispatch_allowed args w) ev Hev) as H.
  destruct ev; simpl in H; rewrite ?Hq in H; done.
Qed.

(** X17: every write to the output file is flushed, and a writer is
    only ever opened on the path, indent, sort_keys and overwrite of the
    namespace. *)
Theorem writes_flushed args w ev :
  ev ∈ (run_dispatch args w).1 →
  match ev with
  | Write _ flush => flush = true
  | OpenWriter path indent_ sort_keys_ overwrite_ =>
      path = output args ∧ indent_ = indent args
      ∧ sort_keys_ = sort_keys args ∧ overwrite_ = overwrite args
  | _ => True
  end.
Proof.
  intros Hev.
  pose proof (proj1 (Forall_forall _ _) (dispatch_allowed args w) ev Hev) as H.
  destruct ev; simpl in H; try done.
  - apply andb_true_iff in H. destruct H as [_ H].
    by apply bool_decide_eq_true_1 in H.
  - apply andb_true_iff in H. by destruct H.
Qed.

End DispatchCalls.

Section DispatchEdges.
Context {Message : Type}.
Local Open Scope list_scope.
Implicit Types (s : state Message) (evs : list (event Message)).
Implicit Types (args : Namespace) (chat : Chat Message).
Implicit Types (w : Collaborators Message).

(** X18: when [get_chat] raises, the run consumes no message, opens no
    file and writes nothing: it makes at most one log call and closes
    the downloader. *)
Theorem acquisition_failure args w e :
  get_chat_result w = Raise e →
  ∃ logs,
    (run_dispatch args w).1 = logs ++ [CloseDownloader]
    ∧ Forall (λ ev, is_log ev = true) logs
    ∧ (List.length logs ≤ 1)%nat.
Proof.
  intros Hchat. rewrite dispatch_run.
  unfold try_body, bind, lift. rewrite Hchat. simpl.
  destruct (except_clauses_logs e (@initial_state Message))
    as (logs & E & F & L).
  destruct (except_clauses e initial_state) as [s2 r2]. simpl in E.
  subst s2. simpl. exists logs. unfold cleanup. simpl.
  by rewrite andb_false_r.
Qed.

(** X19: when the writer of the output file cannot be constructed, the
    run consumes no message: after the two log calls on the chat it
    makes at most one log call and closes the downloader; no writer is
    closed, as none was opened. *)
Theorem writer_failure args w chat e :
  get_chat_result w = Ok chat →
  truthy (output args) = true →
  writer_exn w = Some e →
  ∃ logs,
    (run_dispatch args w).1
    = [ Log "debug" ("Chat information: " ++ dict_repr chat)%string;
        Log "info" ("Retrieving chat for " ++ dquote ++ title chat
                    ++ dquote ++ ".")%string ]
      ++ logs ++ [CloseDownloader]
    ∧ Forall (λ ev, is_log ev = true) logs
    ∧ (List.length logs ≤ 1)%nat.
Proof.
  intros Hchat Hout Hwriter. rewrite dispatch_run.
  unfold try_body, bind, lift, log, emit, raise_if, raise.
  rewrite Hchat. simpl. rewrite Hout, Hwriter. simpl.
  match goal with
  | |- context [except_clauses e ?s0] =>
      destruct (except_clauses_logs e s0) as (logs & E & F & L);
      destruct (except_clauses e s0) as [s2 r2]
  end.
  simpl in E. subst s2. simpl. exists logs. unfold cleanup. simpl.
  by rewrite andb_false_r.
Qed.

(** X20: [dispatch] raises only what its [except] clauses do not name:
    an exception that leaves [main] is of none of the fourteen
    classified kinds. *)
Theorem only_unclassified_propagates args w e :
  (run_dispatch args w).2 = Raise e →
  kind e = IndexError ∨ kind e = KeyError ∨ kind e = TypeError
  ∨ ∃ class_name, kind e = OtherException class_name.
Proof.
  rewrite dispatch_run.
  destruct (try_body args w initial_state) as [s1 [[]|e1]]; [done|].
  unfold except_clauses, log, emit, raise.
  destruct (kind e1) eqn:Hk; simpl; try done; intros [= <-]; rewrite Hk; eauto.
Qed.

(** X21: when writing an item to the output file fails, the items
    before it have been printed and written, the item itself has been
    printed (unless [quiet] is set) and is not written, and no later
    item is consumed: the run goes on with at most one log call and the
    cleanup, which closes the writer. *)
Theorem write_failure args w chat items item e rest :
  get_chat_result w = Ok chat →
  writer_exn w = None →
  truthy (output args) = true →
  messages chat = yields items (IterYield item None (Some e) rest) →
  ∃ logs,
    (run_dispatch args w).1
    = loop_prelude args chat
      ++ flat_map (item_events args chat) items
      ++ (if quiet args then [] else [SafePrint (format chat item)])
      ++ logs ++ [CloseDownloader; CloseWriter]
    ∧ Forall (λ ev, is_log ev = true) logs
    ∧ (List.length logs ≤ 1)%nat.
Proof.
  intros Hchat Hwriter Hout Hitems.
  rewrite dispatch_run, (try_body_run args w chat) by done.
  rewrite Hitems. unfold bind at 1. rewrite for_each_yields.
  unfold extend, initial_state. simpl.
  unfold chosen_callback, write_to_file, print_formatted. rewrite Hout.
  unfold bind, raise_if, raise, ret, emit.
  destruct (quiet args); simpl;
    match goal with
    | |- context [except_clauses e ?s0] =>
        destruct (except_clauses_logs e s0) as (logs & E & F & L);
        destruct (except_clauses e s0) as [s2 r2]
    end; simpl in E; subst s2; simpl; exists logs;
    unfold cleanup; simpl; rewrite Hout; simpl;
    (split; [by repeat rewrite <- app_assoc|done]).
Qed.

End DispatchEdges.

Lemma no_output_no_writer_witness :
  is_open_writer (SafePrint "> a" : event string) = false
  ∧ is_write (SafePrint "> a" : event string) = false
  ∧ is_close_writer (SafePrint "> a" : event string) = false.
Proof.
  apply (no_output_no_writer console_args example_collaborators
           (SafePrint "> a")).
  - reflexivity.
  - vm_compute. do 2 apply list_elem_of_further. apply list_elem_of_here.
Defined.

Lemma quiet_no_console_witness :
  is_safe_print (Write "a" true : event string) = false.
Proof.
  apply (quiet_no_console example_args example_collaborators (Write "a" true)).
  - reflexivity.
  - vm_compute. do 3 apply list_elem_of_further. apply list_elem_of_here.
Defined.

Lemma writes_flushed_witness :
  PStr "chat.json" = output example_args ∧ PInt 4 = indent example_args
  ∧ PBool true = sort_keys example_args
  ∧ PBool false = overwrite example_args.
Proof.
  apply (writes_flushed example_args example_collaborators
           (OpenWriter (PStr "chat.json") (PInt 4) (PBool true) (PBool false))).
  vm_compute. do 2 apply list_elem_of_further. apply list_elem_of_here.
Defined.

Lemma acquisition_failure_witness :
  ∃ logs,
    (run_dispatch example_args failing_collaborators).1
    = (logs ++ [CloseDownloader])%list
    ∧ Forall (λ ev, is_log ev = true) logs
    ∧ (List.length logs ≤ 1)%nat.
Proof.
  apply (acquisition_failure example_args failing_collaborators login_required).
  reflexivity.
Defined.

Lemma writer_failure_witness :
  ∃ logs,
    (run_dispatch example_args failing_writer_collaborators).1
    = ([ Log "debug" "Chat information: {}";
         Log "info" ("Retrieving chat for " ++ dquote ++ "Stream"
                     ++ dquote ++ ".") ]
       ++ logs ++ [CloseDownloader])%list
    ∧ Forall (λ ev, is_log ev = true) logs
    ∧ (List.length logs ≤ 1)%nat.
Proof.
  apply (writer_failure example_args failing_writer_collaborators
           example_chat disk_full).
  - reflexivity.
  - reflexivity.
  - reflexivity.
Defined.

Lemma only_unclassified_propagates_witness :
  kind disk_full = IndexError ∨ kind disk_full = KeyError
  ∨ kind disk_full = TypeError
  ∨ ∃ class_name, kind disk_full = OtherException class_name.
Proof.
  apply (only_unclassified_propagates example_args
           failing_write_collaborators disk_full).
  vm_compute. reflexivity.
Defined.

Lemma write_failure_witness :
  ∃ logs,
    (run_dispatch (output_args (PBool true)) failing_write_collaborators).1
    = (loop_prelude (output_args (PBool true)) failing_write_chat
       ++ [SafePrint "> a"; Write "a" true; SafePrint "> b"; Write "b" true]
       ++ [SafePrint "> c"]
       ++ logs ++ [CloseDownloader; CloseWriter])%list
    ∧ Forall (λ ev, is_log ev = true) logs
    ∧ (List.length logs ≤ 1)%nat.
Proof.
  apply (write_failure (output_args (PBool true)) failing_write_collaborators
           failing_write_chat ["a"; "b"] "c" disk_full
           (yields ["d"] StopIteration)).
  - reflexivity.
  - reflexivity.
  - reflexivity.
  - reflexivity.
Defined.
